(** * The v2-push apply loop: [processApplyStreams] and [processEvent]

    A shallow embedding of the two methods of [V2PushCommand] that consume
    the three channels returned by [Actor.Apply] (command/v2, the file that
    declares [V2PushCommand]), and the properties of that loop.

    The Go [select] statement is modelled by an explicit schedule: the list
    of the cases chosen at the successive iterations of the [for] loop.  A
    case can be chosen only when its communication can proceed; among several
    ready cases Go chooses any one of them, so every schedule whose choices
    are ready is an execution of the loop. *)

From Stdlib Require Import List String Bool Arith Lia.
Import ListNotations.
Open Scope string_scope.
Open Scope list_scope.

(** ** Values exchanged with the push actor *)

(** [pushaction.Event].  The type and its constants are declared in the
    actor package; the seven constants named by [processEvent] are the first
    seven constructors (constants of one [switch] are pairwise distinct), and
    [OtherEvent] stands for every other value of the type. *)
Inductive Event : Type :=
| ApplicationCreated
| ApplicationUpdated
| RouteCreated
| RouteBound
| UploadingApplication
| UploadComplete
| Complete
| OtherEvent (name : string).

(** [pushaction.Warnings] is a slice of strings; the nil slice is []. *)
Definition Warnings : Type := list string.

(** Go's [error]: the nil interface value, or an error with its cause. *)
Inductive error : Type :=
| ErrNil
| ErrValue (cause : string).

Definition is_nil (err : error) : bool :=
  match err with ErrNil => true | ErrValue _ => false end.

(** The part of [pushaction.ApplicationConfig] the loop reads:
    [appConfig.DesiredApplication.Name]. *)
Record ApplicationConfig : Type := mkApplicationConfig {
  DesiredApplicationName : string
}.

(** ** The command's collaborators *)

Record User : Type := mkUser { UserName : string }.

(** [command.Config], by the results of the three getters the loop calls.
    [CurrentUser] returns a user and an error, as in Go. *)
Record Config : Type := mkConfig {
  CurrentUser : User * error;
  TargetedOrganizationName : string;
  TargetedSpaceName : string
}.

(** [command.UI] is a sink; its state is the log of the calls made on it. *)
Inductive ui_call : Type :=
| DisplayTextWithFlavor (template : string) (vars : list (string * string))
| DisplayText (template : string)
| DisplayWarnings (warnings : Warnings).

Definition UI : Type := list ui_call.

(** Modelled from the spec: the display sink, whose implementation is not
    part of the command.  Each text call appends one line and a warning
    batch is flushed as one line per warning, in order. *)
Inductive line : Type :=
| TextLine (template : string) (vars : list (string * string))
| WarningLine (warning : string).

Definition lines_of_call (c : ui_call) : list line :=
  match c with
  | DisplayTextWithFlavor t vars => [TextLine t vars]
  | DisplayText t => [TextLine t []]
  | DisplayWarnings ws => map WarningLine ws
  end.

Definition rendered (ui : UI) : list line := flat_map lines_of_call ui.

(** ** Channels *)

Module Chan.

(** A receive-only channel seen from the consumer: the values still to be
    delivered, in production order, and whether the producer closes the
    channel behind them. *)
Record t (A : Type) : Type := Make { pending : list A; closing : bool }.
Arguments Make {A} _ _.
Arguments pending {A} _.
Arguments closing {A} _.

(** The three results of [v, ok := <-c]: a value with [ok = true], the zero
    value with [ok = false] on a closed and drained channel, or no
    communication at all on an open, empty channel. *)
Inductive received (A : Type) : Type :=
| Value (a : A) (rest : t A)
| EndOfStream
| WouldBlock.
Arguments Value {A} _ _.
Arguments EndOfStream {A}.
Arguments WouldBlock {A}.

Definition recv {A : Type} (c : t A) : received A :=
  match pending c with
  | a :: q => Value a (Make q (closing c))
  | [] => if closing c then EndOfStream else WouldBlock
  end.

Definition closed_and_drained {A : Type} (c : t A) : Prop :=
  pending c = [] /\ closing c = true.

End Chan.

(** The cases of the [select] statement, in source order. *)
Inductive select_case : Type := CaseEvent | CaseWarnings | CaseError.

(** What one communication of the [select] received. *)
Inductive comm : Type :=
| GotEvent (event : Event)
| EventStreamClosed
| GotWarnings (warnings : Warnings)
| WarningsStreamClosed
| GotError (err : error)
| ErrorStreamClosed.

(** ** processEvent *)

Definition flavor_vars (cfg : Config) (appConfig : ApplicationConfig)
    (user : User) : list (string * string) :=
  [ ("AppName", DesiredApplicationName appConfig);
    ("OrgName", TargetedOrganizationName cfg);
    ("SpaceName", TargetedSpaceName cfg);
    ("Username", UserName user) ].

Definition creating_template : string :=
  "Creating app {{.AppName}} in org {{.OrgName}} / space {{.SpaceName}} as {{.Username}}...".

Definition updating_template : string :=
  "Updating app {{.AppName}} in org {{.OrgName}} / space {{.SpaceName}} as {{.Username}}...".

(** [processEvent] returns [(bool, error)] and may call the UI; the UI log is
    passed in and returned. *)
Definition processEvent (cfg : Config) (appConfig : ApplicationConfig)
    (event : Event) (ui : UI) : bool * error * UI :=
  match event with
  | ApplicationCreated =>
      let '(user, err) := CurrentUser cfg in
      if is_nil err
      then (false, ErrNil,
            ui ++ [DisplayTextWithFlavor creating_template
                     (flavor_vars cfg appConfig user)])
      else (false, err, ui)
  | ApplicationUpdated =>
      let '(user, err) := CurrentUser cfg in
      if is_nil err
      then (false, ErrNil,
            ui ++ [DisplayTextWithFlavor updating_template
                     (flavor_vars cfg appConfig user)])
      else (false, err, ui)
  | RouteCreated => (false, ErrNil, ui ++ [DisplayText "Creating routes..."])
  | RouteBound => (false, ErrNil, ui ++ [DisplayText "Binding routes..."])
  | UploadingApplication =>
      (false, ErrNil, ui ++ [DisplayText "Uploading application..."])
  | UploadComplete => (false, ErrNil, ui ++ [DisplayText "Upload complete"])
  | Complete => (true, ErrNil, ui)
  | OtherEvent _ => (false, ErrNil, ui)
  end.

(** ** processApplyStreams *)

(** The local variables of [processApplyStreams], the three channels, the UI
    log, and the communications performed so far.  [history] is a ghost
    field: nothing in the loop reads it. *)
Record loop_state : Type := mkLoop {
  eventClosed : bool;
  warningsClosed : bool;
  complete : bool;
  eventStream : Chan.t Event;
  warningsStream : Chan.t Warnings;
  errorStream : Chan.t error;
  ui : UI;
  history : list comm
}.

Inductive outcome : Type :=
| Returned (err : error) (s : loop_state)
    (** the function returned [err]; [s] is the state it returned in *)
| Selecting (s : loop_state)
    (** the schedule is used up and the loop is at its [select] *)
| NotReady (s : loop_state).
    (** the schedule chose a case whose communication cannot proceed *)

Definition final (o : outcome) : loop_state :=
  match o with Returned _ s | Selecting s | NotReady s => s end.

(** The test that ends an iteration: [break] out of the [for] and
    [return nil], or go round again. *)
Definition loop_exit (s : loop_state) : outcome :=
  if eventClosed s && warningsClosed s && complete s
  then Returned ErrNil s
  else Selecting s.

(** One iteration of the [for] loop, the [select] having chosen [chosen]. *)
Definition iteration (cfg : Config) (appConfig : ApplicationConfig)
    (s : loop_state) (chosen : select_case) : outcome :=
  match chosen with
  | CaseEvent =>
      match Chan.recv (eventStream s) with
      | Chan.WouldBlock => NotReady s
      | Chan.EndOfStream =>
          loop_exit
            (mkLoop true (warningsClosed s) (complete s)
               (eventStream s) (warningsStream s) (errorStream s)
               (ui s) (history s ++ [EventStreamClosed]))
      | Chan.Value event rest =>
          let '(c, err, ui') := processEvent cfg appConfig event (ui s) in
          let s' :=
            mkLoop (eventClosed s) (warningsClosed s) c
              rest (warningsStream s) (errorStream s)
              ui' (history s ++ [GotEvent event]) in
          if is_nil err then loop_exit s' else Returned err s'
      end
  | CaseWarnings =>
      match Chan.recv (warningsStream s) with
      | Chan.WouldBlock => NotReady s
      | Chan.EndOfStream =>
          loop_exit
            (mkLoop (eventClosed s) true (complete s)
               (eventStream s) (warningsStream s) (errorStream s)
               (ui s ++ [DisplayWarnings []])
               (history s ++ [WarningsStreamClosed]))
      | Chan.Value warnings rest =>
          loop_exit
            (mkLoop (eventClosed s) (warningsClosed s) (complete s)
               (eventStream s) rest (errorStream s)
               (ui s ++ [DisplayWarnings warnings])
               (history s ++ [GotWarnings warnings]))
      end
  | CaseError =>
      match Chan.recv (errorStream s) with
      | Chan.WouldBlock => NotReady s
      | Chan.EndOfStream =>
          Returned ErrNil
            (mkLoop (eventClosed s) true (complete s)
               (eventStream s) (warningsStream s) (errorStream s)
               (ui s) (history s ++ [ErrorStreamClosed]))
      | Chan.Value err rest =>
          Returned err
            (mkLoop (eventClosed s) (warningsClosed s) (complete s)
               (eventStream s) (warningsStream s) rest
               (ui s) (history s ++ [GotError err]))
      end
  end.

Fixpoint apply_loop (cfg : Config) (appConfig : ApplicationConfig)
    (schedule : list select_case) (s : loop_state) : outcome :=
  match schedule with
  | [] => Selecting s
  | chosen :: later =>
      match iteration cfg appConfig s chosen with
      | Selecting s' => apply_loop cfg appConfig later s'
      | o => o
      end
  end.

(** [var eventClosed, warningsClosed, complete bool] and an empty UI log. *)
Definition entry (eventStream : Chan.t Event) (warningsStream : Chan.t Warnings)
    (errorStream : Chan.t error) : loop_state :=
  mkLoop false false false eventStream warningsStream errorStream [] [].

Definition processApplyStreams (cfg : Config) (appConfig : ApplicationConfig)
    (eventStream : Chan.t Event) (warningsStream : Chan.t Warnings)
    (errorStream : Chan.t error) (schedule : list select_case) : outcome :=
  apply_loop cfg appConfig schedule (entry eventStream warningsStream errorStream).

(** The value [processApplyStreams] returned, if it has returned. *)
Definition result (o : outcome) : option error :=
  match o with Returned err _ => Some err | _ => None end.

(** ** Reading a run back from its history *)

Fixpoint events_of (h : list comm) : list Event :=
  match h with
  | [] => []
  | GotEvent e :: h' => e :: events_of h'
  | _ :: h' => events_of h'
  end.

Fixpoint batches_of (h : list comm) : list Warnings :=
  match h with
  | [] => []
  | GotWarnings ws :: h' => ws :: batches_of h'
  | _ :: h' => batches_of h'
  end.

(** The progress event received most recently, if any. *)
Definition last_event (h : list comm) : option Event :=
  last (map Some (events_of h)) None.

Fixpoint warning_lines (ls : list line) : list string :=
  match ls with
  | [] => []
  | WarningLine w :: ls' => w :: warning_lines ls'
  | TextLine _ _ :: ls' => warning_lines ls'
  end.

(** The UI calls one communication gives rise to. *)
Definition calls_of (cfg : Config) (appConfig : ApplicationConfig)
    (c : comm) : UI :=
  match c with
  | GotEvent e => snd (processEvent cfg appConfig e [])
  | GotWarnings ws => [DisplayWarnings ws]
  | WarningsStreamClosed => [DisplayWarnings []]
  | EventStreamClosed | GotError _ | ErrorStreamClosed => []
  end.

(** The producer's contract on the events stream: the terminal marker, when
    there is one, is the last value of the stream. *)
Fixpoint terminal_last (events : list Event) : bool :=
  match events with
  | [] => true
  | Complete :: rest => match rest with [] => true | _ :: _ => false end
  | _ :: rest => terminal_last rest
  end.

(** The events and warnings cases of the [select]. *)
Definition not_error_case (c : select_case) : bool :=
  match c with CaseError => false | _ => true end.

(** ** Invariants, sample collaborators and scenarios *)

(** What holds of the loop whenever it is at its [select]: the flags say
    what the history says, a stream recorded as closed is closed and
    drained, the events stream is consumed in order, and the UI log is the
    rendering of the history. *)
Record consistent (cfg : Config) (app : ApplicationConfig)
    (events0 : list Event) (s : loop_state) : Prop := mkConsistent {
  c_eventClosed : eventClosed s = true <-> In EventStreamClosed (history s);
  c_warningsClosed :
    warningsClosed s = true <-> In WarningsStreamClosed (history s);
  c_complete : complete s = true <-> last_event (history s) = Some Complete;
  c_event_drained :
    eventClosed s = true -> Chan.recv (eventStream s) = Chan.EndOfStream;
  c_warnings_drained :
    warningsClosed s = true -> Chan.recv (warningsStream s) = Chan.EndOfStream;
  c_events : events0 = events_of (history s) ++ Chan.pending (eventStream s);
  c_ui : ui s = flat_map (calls_of cfg app) (history s)
}.

Definition running (s : loop_state) : Prop :=
  eventClosed s && warningsClosed s && complete s = false.

(** The ways an iteration on the events or warnings case can end. *)
Inductive step_result (cfg : Config) (app : ApplicationConfig)
    (events0 : list Event) (s : loop_state) : outcome -> Prop :=
| step_on s' c :
    consistent cfg app events0 s' -> running s' ->
    history s' = history s ++ [c] ->
    step_result cfg app events0 s (Selecting s')
| step_success s' c :
    consistent cfg app events0 s' ->
    eventClosed s' = true -> warningsClosed s' = true -> complete s' = true ->
    history s' = history s ++ [c] ->
    step_result cfg app events0 s (Returned ErrNil s')
| step_lookup_failed err s' event :
    is_nil err = false -> err = snd (CurrentUser cfg) ->
    event = ApplicationCreated \/ event = ApplicationUpdated ->
    history s' = history s ++ [GotEvent event] ->
    events0 = events_of (history s') ++ Chan.pending (eventStream s') ->
    ui s' = ui s ->
    step_result cfg app events0 s (Returned err s')
| step_not_ready :
    step_result cfg app events0 s (NotReady s).

Definition admin_config : Config :=
  mkConfig (mkUser "admin", ErrNil) "some-org" "some-space".

Definition logged_out_config : Config :=
  mkConfig (mkUser "", ErrValue "not logged in") "some-org" "some-space".

Definition some_app : ApplicationConfig := mkApplicationConfig "some-app".

Definition open_empty {A : Type} : Chan.t A := Chan.Make [] false.
Definition closed_empty {A : Type} : Chan.t A := Chan.Make [] true.

(** The stream a communication was received from. *)
Definition stream_of (c : comm) : select_case :=
  match c with
  | GotEvent _ | EventStreamClosed => CaseEvent
  | GotWarnings _ | WarningsStreamClosed => CaseWarnings
  | GotError _ | ErrorStreamClosed => CaseError
  end.

Definition is_closure (c : comm) : bool :=
  match c with
  | EventStreamClosed | WarningsStreamClosed | ErrorStreamClosed => true
  | _ => false
  end.

(** What holds of the state an iteration ends in, whatever its outcome: the
    UI log is the rendering of the history, and the batches received are the
    first batches of the warnings stream, in order. *)
Definition rendering_consistent (cfg : Config) (app : ApplicationConfig)
    (batches0 : list Warnings) (s : loop_state) : Prop :=
  ui s = flat_map (calls_of cfg app) (history s) /\
  batches0 = batches_of (history s) ++ Chan.pending (warningsStream s).

(** Scenario A: six events ending with the terminal marker, then closure; no
    warnings; the error stream closed with no items. *)
Definition scenario_A (cfg : Config) (schedule : list select_case) : outcome :=
  processApplyStreams cfg some_app
    (Chan.Make [ApplicationCreated; RouteCreated; RouteBound;
                UploadingApplication; UploadComplete; Complete] true)
    closed_empty closed_empty schedule.

(** Scenario C: a warning batch is still to come when the terminal marker is
    received; the error stream is closed with no items. *)
Definition scenario_C (cfg : Config) (schedule : list select_case) : outcome :=
  processApplyStreams cfg some_app
    (Chan.Make [Complete] true)
    (Chan.Make [["disk quota near limit"]] true)
    closed_empty schedule.

(** Scenario D: the events stream closes without the terminal marker; no
    error is ever sent. *)
Definition scenario_D (cfg : Config) (errorStream : Chan.t error)
    (schedule : list select_case) : outcome :=
  processApplyStreams cfg some_app
    (Chan.Make [ApplicationCreated; RouteCreated] true)
    closed_empty errorStream schedule.

(** ** Counting the choices of a schedule *)

Definition case_eqb (a b : select_case) : bool :=
  match a, b with
  | CaseEvent, CaseEvent | CaseWarnings, CaseWarnings
  | CaseError, CaseError => true
  | _, _ => false
  end.

(** How many times a schedule chooses the case [c]. *)
Definition count_case (c : select_case) (schedule : list select_case) : nat :=
  List.length (filter (case_eqb c) schedule).

Definition is_terminal (e : Event) : bool :=
  match e with Complete => true | _ => false end.

(** The value of [complete] once the events [pending] have been processed,
    [now] being its value before them: the assignment of line 152 overwrites
    it at every event. *)
Definition complete_after (now : bool) (pending : list Event) : bool :=
  last (map is_terminal pending) now.

(** The iterations on the events stream the loop still needs before it has
    recorded the closure of that stream, and the same for the warnings
    stream. *)
Definition events_left (s : loop_state) : nat :=
  if eventClosed s then 0 else S (List.length (Chan.pending (eventStream s))).

Definition warnings_left (s : loop_state) : nat :=
  if warningsClosed s
  then 0 else S (List.length (Chan.pending (warningsStream s))).

(** The state of a run that can still end in success: both streams are
    closed behind their pending values, a stream recorded as closed is
    drained, and [complete] will be true once the pending events are
    processed. *)
Definition draining (s : loop_state) : Prop :=
  Chan.closing (eventStream s) = true /\
  Chan.closing (warningsStream s) = true /\
  (eventClosed s = true -> Chan.pending (eventStream s) = []) /\
  (warningsClosed s = true -> Chan.pending (warningsStream s) = []) /\
  complete_after (complete s) (Chan.pending (eventStream s)) = true.

Fixpoint text_lines (ls : list line) : list line :=
  match ls with
  | [] => []
  | TextLine t vars :: ls' => TextLine t vars :: text_lines ls'
  | WarningLine _ :: ls' => text_lines ls'
  end.

(** The lines one progress event is rendered as. *)
Definition event_lines (cfg : Config) (app : ApplicationConfig)
    (e : Event) : list line :=
  rendered (calls_of cfg app (GotEvent e)).

(** The events whose case of the [switch] calls [cmd.Config.CurrentUser]. *)
Definition looks_up_user (e : Event) : bool :=
  match e with
  | ApplicationCreated | ApplicationUpdated => true
  | _ => false
  end.

(** The events whose case of the [switch] displays a text. *)
Definition displays_text (e : Event) : bool :=
  match e with
  | Complete | OtherEvent _ => false
  | _ => true
  end.

(** ** Execute and GetCommandLineSettings *)

(** [pushaction.CommandLineSettings], by the two fields
    [GetCommandLineSettings] sets. *)
Record CommandLineSettings : Type := mkCommandLineSettings {
  Name : string;
  Path : string
}.

(** The [V2PushActor] interface.  [manifest.Application] is declared in the
    manifest package and is the type parameter [M]. *)
Record V2PushActor (M : Type) : Type := mkV2PushActor {
  Apply : ApplicationConfig -> Chan.t Event * Chan.t Warnings * Chan.t error;
  ConvertToApplicationConfig :
    string -> string -> list M -> list ApplicationConfig * Warnings * error;
  MergeAndValidateSettingsAndManifests :
    CommandLineSettings -> list M -> list M * error
}.
Arguments Apply {M} _ _.
Arguments ConvertToApplicationConfig {M} _ _ _ _.
Arguments MergeAndValidateSettingsAndManifests {M} _ _ _.

(** What [Execute] reads of [V2PushCommand] and of its environment: the
    positional argument, the configuration with the GUIDs of the targeted
    organization and space, the results of [SharedActor.CheckTarget] and of
    [os.Getwd], the actor, and [shared.HandleError]. *)
Record V2PushCommand (M : Type) : Type := mkV2PushCommand {
  OptionalArgsAppName : string;
  CommandConfig : Config;
  TargetedOrganizationGUID : string;
  TargetedSpaceGUID : string;
  CheckTarget : error;
  Getwd : string * error;
  Actor : V2PushActor M;
  HandleError : error -> error
}.
Arguments OptionalArgsAppName {M} _.
Arguments CommandConfig {M} _.
Arguments TargetedOrganizationGUID {M} _.
Arguments TargetedSpaceGUID {M} _.
Arguments CheckTarget {M} _.
Arguments Getwd {M} _.
Arguments Actor {M} _.
Arguments HandleError {M} _ _.

(** The UI calls of [Execute]: [DisplayWarning], and the calls of the apply
    loop. *)
Inductive command_call : Type :=
| DisplayWarning (warning : string)
| Call (c : ui_call).

Inductive execute_outcome : Type :=
| Done (err : error) (log : list command_call)
    (** [Execute] returned [err] *)
| Applying (log : list command_call).
    (** a call of [processApplyStreams] has not returned *)

Definition execute_log (o : execute_outcome) : list command_call :=
  match o with Done _ log | Applying log => log end.

Definition GetCommandLineSettings {M : Type} (cmd : V2PushCommand M)
    : CommandLineSettings * error :=
  let '(pwd, err) := Getwd cmd in
  if is_nil err
  then (mkCommandLineSettings (OptionalArgsAppName cmd) pwd, ErrNil)
  else (mkCommandLineSettings "" "", err).

(** The result and the UI calls of one call of [processApplyStreams] made
    by [Execute], on the channels [Apply] returns. *)
Definition apply_run {M : Type} (cmd : V2PushCommand M)
    (appConfig : ApplicationConfig) (schedule : list select_case) : outcome :=
  let '(eventStream, warningsStream, errorStream) :=
    Apply (Actor cmd) appConfig in
  processApplyStreams (CommandConfig cmd) appConfig
    eventStream warningsStream errorStream schedule.

Definition apply_log {M : Type} (cmd : V2PushCommand M)
    (appConfig : ApplicationConfig) (schedule : list select_case)
    : list command_call :=
  map Call (ui (final (apply_run cmd appConfig schedule))).

(** The [for _, appConfig := range appConfigs] loop of [Execute];
    [schedules] gives the schedule of each call of [processApplyStreams] in
    turn. *)
Fixpoint apply_each {M : Type} (cmd : V2PushCommand M)
    (appConfigs : list ApplicationConfig)
    (schedules : list (list select_case)) (log : list command_call)
    : execute_outcome :=
  match appConfigs with
  | [] => Done ErrNil log
  | appConfig :: rest =>
      let log' := log ++ apply_log cmd appConfig (hd [] schedules) in
      match result (apply_run cmd appConfig (hd [] schedules)) with
      | None => Applying log'
      | Some err =>
          if is_nil err
          then apply_each cmd rest (tl schedules) log'
          else Done (HandleError cmd err) log'
      end
  end.

(** [Execute].  [ExperimentalWarning] is the constant
    [command.ExperimentalWarning]. *)
Definition Execute {M : Type} (ExperimentalWarning : string)
    (cmd : V2PushCommand M) (schedules : list (list select_case))
    : execute_outcome :=
  let log0 := [DisplayWarning ExperimentalWarning] in
  if negb (is_nil (CheckTarget cmd))
  then Done (HandleError cmd (CheckTarget cmd)) log0
  else
    let '(cliSettings, err) := GetCommandLineSettings cmd in
    if negb (is_nil err) then Done (HandleError cmd err) log0
    else
      let '(manifestApplications, err) :=
        MergeAndValidateSettingsAndManifests (Actor cmd) cliSettings [] in
      if negb (is_nil err) then Done (HandleError cmd err) log0
      else
        let log1 := log0 ++ [Call (DisplayText "Getting app info...")] in
        let '(appConfigs, warnings, err) :=
          ConvertToApplicationConfig (Actor cmd)
            (TargetedOrganizationGUID cmd) (TargetedSpaceGUID cmd)
            manifestApplications in
        let log2 := log1 ++ [Call (DisplayWarnings warnings)] in
        if negb (is_nil err) then Done (HandleError cmd err) log2
        else apply_each cmd appConfigs schedules log2.

(** The UI calls of the runs of [processApplyStreams] for the
    applications [appConfigs], each under its schedule, one run after the
    other. *)
Definition apply_logs {M : Type} (cmd : V2PushCommand M)
    (appConfigs : list ApplicationConfig)
    (schedules : list (list select_case)) : list command_call :=
  flat_map (fun p => apply_log cmd (fst p) (snd p))
    (combine appConfigs schedules).

(** The run of [processApplyStreams] for [appConfig] under [schedule]
    returns nil. *)
Definition applied {M : Type} (cmd : V2PushCommand M)
    (appConfig : ApplicationConfig) (schedule : list select_case) : Prop :=
  result (apply_run cmd appConfig schedule) = Some ErrNil.

(** The four steps before the loop succeed and yield [appConfigs] with the
    warnings [warnings]. *)
Definition prepared {M : Type} (cmd : V2PushCommand M)
    (appConfigs : list ApplicationConfig) (warnings : Warnings) : Prop :=
  CheckTarget cmd = ErrNil /\
  snd (Getwd cmd) = ErrNil /\
  exists manifestApplications,
    MergeAndValidateSettingsAndManifests (Actor cmd)
      (mkCommandLineSettings (OptionalArgsAppName cmd) (fst (Getwd cmd))) []
      = (manifestApplications, ErrNil) /\
    ConvertToApplicationConfig (Actor cmd)
      (TargetedOrganizationGUID cmd) (TargetedSpaceGUID cmd)
      manifestApplications
      = (appConfigs, warnings, ErrNil).

(** What [Execute] displays before the loop. *)
Definition preamble (ExperimentalWarning : string) (warnings : Warnings)
    : list command_call :=
  [DisplayWarning ExperimentalWarning;
   Call (DisplayText "Getting app info...");
   Call (DisplayWarnings warnings)].

(** A command whose actor applies every application on the same three
    channels, for the concrete runs. *)
Definition sample_command (events : list Event) (errors : list error)
    : V2PushCommand string :=
  mkV2PushCommand string "some-app" admin_config "org-guid" "space-guid"
    ErrNil ("/home/app", ErrNil)
    (mkV2PushActor string
       (fun _ => (Chan.Make events true, closed_empty,
                  Chan.Make errors true))
       (fun _ _ _ =>
          ([mkApplicationConfig "app-1"; mkApplicationConfig "app-2";
            mkApplicationConfig "app-3"],
           ["manifest is deprecated"], ErrNil))
       (fun settings manifests => (Name settings :: manifests, ErrNil)))
    (fun err =>
       match err with
       | ErrNil => ErrNil
       | ErrValue cause => ErrValue ("FAILED: " ++ cause)
       end).

(** ** SecurityGroup.UnmarshalJSON *)

Module CCV2.

Record SecurityGroupRule : Type := mkSecurityGroupRule {
  Description : string;
  Destination : string;
  Ports : string;
  Protocol : string
}.

Record SecurityGroup : Type := mkSecurityGroup {
  GUID : string;
  Name : string;
  Rules : list SecurityGroupRule
}.

(** The anonymous struct [ccSecurityGroup] that the response is decoded
    into, by its JSON keys.  Of [internal.Metadata] only the GUID is read. *)
Record ccRule : Type := mkCcRule {
  description : string;
  destination : string;
  ports : string;
  protocol : string
}.

Record ccEntity : Type := mkCcEntity {
  guid : string;
  name : string;
  rules : list ccRule
}.

Record ccSecurityGroup : Type := mkCcSecurityGroup {
  metadata_guid : string;
  entity : ccEntity
}.

(** The zero value of [SecurityGroupRule], which [make] fills the slice
    with. *)
Definition zero_rule : SecurityGroupRule := mkSecurityGroupRule "" "" "" "".

(** [rules[i] = f(rules[i])]; [None] is the panic of an index out of
    range. *)
Definition assign (rules : list SecurityGroupRule) (i : nat)
    (f : SecurityGroupRule -> SecurityGroupRule)
    : option (list SecurityGroupRule) :=
  match nth_error rules i with
  | None => None
  | Some r => Some (firstn i rules ++ f r :: skipn (S i) rules)
  end.

Definition bind {A B : Type} (x : option A) (f : A -> option B) : option B :=
  match x with Some a => f a | None => None end.

(** The body of the [for i, ccRule := range] loop: four field
    assignments to [securityGroup.Rules[i]]. *)
Definition copy_rule (i : nat) (c : ccRule) (rs : list SecurityGroupRule)
    : option (list SecurityGroupRule) :=
  bind (assign rs i (fun r =>
          mkSecurityGroupRule (description c) (Destination r) (Ports r)
            (Protocol r))) (fun rs1 =>
  bind (assign rs1 i (fun r =>
          mkSecurityGroupRule (Description r) (destination c) (Ports r)
            (Protocol r))) (fun rs2 =>
  bind (assign rs2 i (fun r =>
          mkSecurityGroupRule (Description r) (Destination r) (ports c)
            (Protocol r))) (fun rs3 =>
  assign rs3 i (fun r =>
          mkSecurityGroupRule (Description r) (Destination r) (Ports r)
            (protocol c))))).

(** The loop, from index [i] on. *)
Fixpoint copy_rules (i : nat) (ccRules : list ccRule)
    (rs : list SecurityGroupRule) : option (list SecurityGroupRule) :=
  match ccRules with
  | [] => Some rs
  | c :: rest => bind (copy_rule i c rs) (copy_rules (S i) rest)
  end.

(** [UnmarshalJSON].  [json_Unmarshal] is [json.Unmarshal] into the
    anonymous struct; the receiver [securityGroup] is passed in and
    returned.  [None] is a panic. *)
Definition UnmarshalJSON
    (json_Unmarshal : list Byte.byte -> ccSecurityGroup * error)
    (securityGroup : SecurityGroup) (data : list Byte.byte)
    : option (SecurityGroup * error) :=
  let '(ccSecurityGroup, err) := json_Unmarshal data in
  if negb (is_nil err) then Some (securityGroup, err)
  else
    bind (copy_rules 0 (rules (entity ccSecurityGroup))
            (repeat zero_rule (List.length (rules (entity ccSecurityGroup)))))
      (fun rs =>
         Some (mkSecurityGroup (metadata_guid ccSecurityGroup)
                 (name (entity ccSecurityGroup)) rs,
               ErrNil)).

(** What the loop amounts to: each rule field by field. *)
Definition of_ccRule (c : ccRule) : SecurityGroupRule :=
  mkSecurityGroupRule (description c) (destination c) (ports c) (protocol c).

End CCV2.

(** ** Lemmas on lists and histories *)

Lemma events_of_app h1 h2 : events_of (h1 ++ h2) = events_of h1 ++ events_of h2.
Proof.
  induction h1 as [|c h1 IH]; simpl; [reflexivity|].
  destruct c; simpl; rewrite ?IH; reflexivity.
Qed.

Lemma batches_of_app h1 h2 :
  batches_of (h1 ++ h2) = batches_of h1 ++ batches_of h2.
Proof.
  induction h1 as [|c h1 IH]; simpl; [reflexivity|].
  destruct c; simpl; rewrite ?IH; reflexivity.
Qed.

Lemma warning_lines_app l1 l2 :
  warning_lines (l1 ++ l2) = warning_lines l1 ++ warning_lines l2.
Proof.
  induction l1 as [|x l1 IH]; simpl; [reflexivity|].
  destruct x; simpl; rewrite ?IH; reflexivity.
Qed.

Lemma warning_lines_map ws : warning_lines (map WarningLine ws) = ws.
Proof. induction ws as [|w ws IH]; simpl; congruence. Qed.

Lemma rendered_app u1 u2 : rendered (u1 ++ u2) = rendered u1 ++ rendered u2.
Proof. unfold rendered. apply flat_map_app. Qed.

Lemma last_event_snoc_event h e : last_event (h ++ [GotEvent e]) = Some e.
Proof.
  unfold last_event. rewrite events_of_app, map_app. simpl.
  apply last_last.
Qed.

Lemma last_event_snoc_other h c :
  events_of [c] = [] -> last_event (h ++ [c]) = last_event h.
Proof.
  intros Hc. unfold last_event. rewrite events_of_app, Hc, app_nil_r.
  reflexivity.
Qed.

Lemma in_events_of e h : In e (events_of h) <-> In (GotEvent e) h.
Proof.
  induction h as [|c h IH]; simpl; [tauto|].
  destruct c; simpl; rewrite IH; split;
    try (intros [H|H]; [try discriminate; try (inversion H; subst; auto);
                        try (subst; auto) | auto]);
    auto.
Qed.

Lemma last_event_in h e : last_event h = Some e -> In (GotEvent e) h.
Proof.
  unfold last_event. intros H. apply in_events_of.
  destruct (events_of h) as [|x l] eqn:E; [discriminate|].
  assert (Hne : map Some (x :: l) <> []) by discriminate.
  destruct (exists_last Hne) as [l' [a Hl']].
  rewrite Hl', last_last in H. subst a.
  assert (Hin : In (Some e) (map Some (x :: l)))
    by (rewrite Hl'; apply in_or_app; right; left; reflexivity).
  apply in_map_iff in Hin. destruct Hin as [y [Hy Hin]].
  inversion Hy; subst. exact Hin.
Qed.

Lemma terminal_last_split before after :
  terminal_last (before ++ Complete :: after) = true -> after = [].
Proof.
  induction before as [|e before IH]; simpl.
  - destruct after; [reflexivity | discriminate].
  - destruct e; auto.
    destruct (before ++ Complete :: after) eqn:E; [|discriminate].
    destruct before; discriminate.
Qed.

(** Under the producer's contract, once the terminal marker has been
    received it is the most recent event. *)
Lemma terminal_received_is_last h rest :
  terminal_last (events_of h ++ rest) = true ->
  In (GotEvent Complete) h ->
  last_event h = Some Complete /\ rest = [].
Proof.
  intros Ht Hin. apply in_events_of in Hin.
  destruct (in_split _ _ Hin) as [a [b Hab]].
  rewrite Hab, <- app_assoc in Ht. simpl in Ht.
  apply terminal_last_split in Ht.
  destruct (app_eq_nil _ _ Ht) as [Hb Hrest]. subst b.
  split; [|exact Hrest].
  unfold last_event. rewrite Hab, map_app. simpl. apply last_last.
Qed.

(** ** Lemmas on processEvent *)

(** The calls [processEvent] makes do not depend on the log they are
    appended to. *)
Lemma processEvent_appends cfg app e u :
  processEvent cfg app e u =
  (fst (fst (processEvent cfg app e [])),
   snd (fst (processEvent cfg app e [])),
   u ++ calls_of cfg app (GotEvent e)).
Proof.
  unfold calls_of.
  destruct e; simpl; rewrite ?app_nil_r; try reflexivity;
    destruct (CurrentUser cfg) as [user err]; destruct err; simpl;
    rewrite ?app_nil_r; reflexivity.
Qed.

Lemma processEvent_complete cfg app e u c err u' :
  processEvent cfg app e u = (c, err, u') -> (c = true <-> e = Complete).
Proof.
  destruct e; simpl; try destruct (CurrentUser cfg) as [user er];
    try destruct (is_nil er); intros H; inversion H; subst;
    split; intros; congruence.
Qed.

(** The only error [processEvent] returns is the one of [CurrentUser]. *)
Lemma processEvent_error cfg app e u c err u' :
  processEvent cfg app e u = (c, err, u') ->
  is_nil err = false ->
  (e = ApplicationCreated \/ e = ApplicationUpdated) /\
  err = snd (CurrentUser cfg) /\ c = false /\ u' = u.
Proof.
  destruct e; simpl; try destruct (CurrentUser cfg) as [user er] eqn:E;
    try destruct (is_nil er) eqn:N; intros H; inversion H; subst;
    simpl; intros Hn; try discriminate; auto.
Qed.

Lemma event_calls_no_warning cfg app e :
  warning_lines (rendered (calls_of cfg app (GotEvent e))) = [].
Proof.
  unfold calls_of.
  destruct e; simpl; try reflexivity;
    destruct (CurrentUser cfg) as [user err]; destruct err; reflexivity.
Qed.

Lemma processEvent_no_error cfg app e u :
  is_nil (snd (CurrentUser cfg)) = true ->
  processEvent cfg app e u =
    (is_terminal e, ErrNil, u ++ calls_of cfg app (GotEvent e)).
Proof.
  intros Hok. rewrite processEvent_appends. unfold calls_of.
  destruct e; simpl; try reflexivity;
    destruct (CurrentUser cfg) as [user err]; simpl in *; rewrite Hok;
    reflexivity.
Qed.

Lemma event_lines_count cfg app e :
  is_nil (snd (CurrentUser cfg)) = true ->
  List.length (event_lines cfg app e) = if displays_text e then 1 else 0.
Proof.
  intros Hok. unfold event_lines, calls_of.
  destruct e; simpl; try reflexivity;
    destruct (CurrentUser cfg) as [user err]; simpl in *; rewrite Hok;
    reflexivity.
Qed.

(** ** Lemmas on the loop *)

Lemma loop_exit_cases s :
  (loop_exit s = Returned ErrNil s /\
   eventClosed s = true /\ warningsClosed s = true /\ complete s = true) \/
  (loop_exit s = Selecting s /\
   eventClosed s && warningsClosed s && complete s = false).
Proof.
  unfold loop_exit.
  destruct (eventClosed s), (warningsClosed s), (complete s); simpl; auto.
Qed.

Lemma apply_loop_app cfg app s1 s2 s :
  apply_loop cfg app (s1 ++ s2) s =
  match apply_loop cfg app s1 s with
  | Selecting s' => apply_loop cfg app s2 s'
  | o => o
  end.
Proof.
  revert s. induction s1 as [|p s1 IH]; intros s; simpl; [reflexivity|].
  destruct (iteration cfg app s p); auto.
Qed.

(** Induction over a run: [P] holds of the states at the [select], [Q] of the
    outcome; [allowed] restricts the cases the schedule may choose. *)
Lemma apply_loop_elim cfg app (allowed : select_case -> bool)
    (P : loop_state -> Prop) (Q : outcome -> Prop) :
  (forall s, P s -> Q (Selecting s)) ->
  (forall s p, P s -> allowed p = true ->
     match iteration cfg app s p with
     | Selecting s' => P s'
     | o => Q o
     end) ->
  forall schedule s,
    forallb allowed schedule = true -> P s -> Q (apply_loop cfg app schedule s).
Proof.
  intros Hend Hstep schedule.
  induction schedule as [|p later IH]; intros s Hall HP; simpl.
  - apply Hend, HP.
  - simpl in Hall. apply andb_true_iff in Hall. destruct Hall as [Hp Hlater].
    specialize (Hstep s p HP Hp).
    destruct (iteration cfg app s p) as [err s'|s'|s']; auto.
Qed.

Lemma recv_Value {A : Type} (c : Chan.t A) a rest :
  Chan.recv c = Chan.Value a rest ->
  Chan.pending c = a :: Chan.pending rest.
Proof.
  unfold Chan.recv. destruct (Chan.pending c) as [|x q] eqn:E.
  - destruct (Chan.closing c); discriminate.
  - intros H. inversion H; subst. reflexivity.
Qed.

Lemma recv_EndOfStream {A : Type} (c : Chan.t A) :
  Chan.recv c = Chan.EndOfStream <-> Chan.closed_and_drained c.
Proof.
  unfold Chan.recv, Chan.closed_and_drained.
  destruct (Chan.pending c) as [|x q]; destruct (Chan.closing c);
    split; intros H; try discriminate; try tauto;
    destruct H; discriminate.
Qed.

Lemma consistent_entry cfg app ev ws er :
  consistent cfg app (Chan.pending ev) (entry ev ws er) /\
  running (entry ev ws er).
Proof.
  split; [|reflexivity].
  constructor; simpl; try reflexivity;
    try (split; [discriminate | contradiction]);
    try discriminate.
  split; discriminate.
Qed.

Lemma in_snoc_other {A : Type} (x y : A) l :
  x <> y -> (In x (l ++ [y]) <-> In x l).
Proof.
  intros Hne. rewrite in_app_iff. simpl. split; [|auto].
  intros [H|[H|[]]]; [exact H | congruence].
Qed.

Lemma in_snoc_same {A : Type} (x : A) l : In x (l ++ [x]).
Proof. apply in_or_app. right. left. reflexivity. Qed.

Lemma consistent_event_closed cfg app events0 s :
  consistent cfg app events0 s ->
  Chan.recv (eventStream s) = Chan.EndOfStream ->
  consistent cfg app events0
    (mkLoop true (warningsClosed s) (complete s)
       (eventStream s) (warningsStream s) (errorStream s)
       (ui s) (history s ++ [EventStreamClosed])).
Proof.
  intros [H1 H2 H3 H4 H5 H6 H7] Hrecv. constructor; simpl.
  - split; intros _; [apply in_snoc_same | reflexivity].
  - rewrite in_snoc_other by discriminate. exact H2.
  - rewrite last_event_snoc_other by reflexivity. exact H3.
  - intros _. exact Hrecv.
  - exact H5.
  - rewrite events_of_app. simpl. rewrite app_nil_r. exact H6.
  - rewrite flat_map_app. simpl. rewrite app_nil_r. exact H7.
Qed.

Lemma consistent_event cfg app events0 s event rest c err u' :
  consistent cfg app events0 s ->
  Chan.recv (eventStream s) = Chan.Value event rest ->
  processEvent cfg app event (ui s) = (c, err, u') ->
  is_nil err = true ->
  consistent cfg app events0
    (mkLoop (eventClosed s) (warningsClosed s) c
       rest (warningsStream s) (errorStream s)
       u' (history s ++ [GotEvent event])).
Proof.
  intros [H1 H2 H3 H4 H5 H6 H7] Hrecv Hpe Hnil.
  assert (Hopen : eventClosed s = false).
  { destruct (eventClosed s); [|reflexivity].
    rewrite H4 in Hrecv by reflexivity. discriminate. }
  constructor; simpl.
  - rewrite in_snoc_other by discriminate. exact H1.
  - rewrite in_snoc_other by discriminate. exact H2.
  - rewrite last_event_snoc_event.
    rewrite (processEvent_complete _ _ _ _ _ _ _ Hpe).
    split; intros; congruence.
  - rewrite Hopen. discriminate.
  - exact H5.
  - rewrite events_of_app. simpl. rewrite <- app_assoc. simpl.
    rewrite <- (recv_Value _ _ _ Hrecv). exact H6.
  - rewrite flat_map_app. simpl. rewrite app_nil_r.
    rewrite processEvent_appends in Hpe. inversion Hpe; subst.
    rewrite H7. reflexivity.
Qed.

Lemma consistent_warnings_closed cfg app events0 s :
  consistent cfg app events0 s ->
  Chan.recv (warningsStream s) = Chan.EndOfStream ->
  consistent cfg app events0
    (mkLoop (eventClosed s) true (complete s)
       (eventStream s) (warningsStream s) (errorStream s)
       (ui s ++ [DisplayWarnings []])
       (history s ++ [WarningsStreamClosed])).
Proof.
  intros [H1 H2 H3 H4 H5 H6 H7] Hrecv. constructor; simpl.
  - rewrite in_snoc_other by discriminate. exact H1.
  - split; intros _; [apply in_snoc_same | reflexivity].
  - rewrite last_event_snoc_other by reflexivity. exact H3.
  - exact H4.
  - intros _. exact Hrecv.
  - rewrite events_of_app. simpl. rewrite app_nil_r. exact H6.
  - rewrite flat_map_app. simpl. rewrite H7. reflexivity.
Qed.

Lemma consistent_warnings cfg app events0 s warnings rest :
  consistent cfg app events0 s ->
  Chan.recv (warningsStream s) = Chan.Value warnings rest ->
  consistent cfg app events0
    (mkLoop (eventClosed s) (warningsClosed s) (complete s)
       (eventStream s) rest (errorStream s)
       (ui s ++ [DisplayWarnings warnings])
       (history s ++ [GotWarnings warnings])).
Proof.
  intros [H1 H2 H3 H4 H5 H6 H7] Hrecv.
  assert (Hopen : warningsClosed s = false).
  { destruct (warningsClosed s); [|reflexivity].
    rewrite H5 in Hrecv by reflexivity. discriminate. }
  constructor; simpl.
  - rewrite in_snoc_other by discriminate. exact H1.
  - rewrite in_snoc_other by discriminate. exact H2.
  - rewrite last_event_snoc_other by reflexivity. exact H3.
  - exact H4.
  - rewrite Hopen. discriminate.
  - rewrite events_of_app. simpl. rewrite app_nil_r. exact H6.
  - rewrite flat_map_app. simpl. rewrite H7. reflexivity.
Qed.

Lemma step_result_exit cfg app events0 s s' c :
  consistent cfg app events0 s' ->
  history s' = history s ++ [c] ->
  step_result cfg app events0 s (loop_exit s').
Proof.
  intros Hc Hh.
  destruct (loop_exit_cases s') as [[-> [E1 [E2 E3]]] | [-> E]].
  - eapply step_success; eauto.
  - eapply step_on; eauto.
Qed.

Lemma iteration_step_result cfg app events0 s p :
  consistent cfg app events0 s ->
  not_error_case p = true ->
  step_result cfg app events0 s (iteration cfg app s p).
Proof.
  intros Hc Hp. destruct p; [| |discriminate]; unfold iteration.
  - destruct (Chan.recv (eventStream s)) as [event rest| |] eqn:Hrecv.
    + destruct (processEvent cfg app event (ui s)) as [[c err] u'] eqn:Hpe.
      destruct (is_nil err) eqn:Hnil.
      * eapply step_result_exit;
          [eapply consistent_event; eauto | reflexivity].
      * destruct (processEvent_error _ _ _ _ _ _ _ Hpe Hnil)
          as [Hev [Herr [Hcf Hu]]].
        eapply step_lookup_failed with (event := event); eauto; simpl.
        rewrite events_of_app. simpl. rewrite <- app_assoc. simpl.
        rewrite <- (recv_Value _ _ _ Hrecv). apply (c_events _ _ _ _ Hc).
    + eapply step_result_exit;
        [apply consistent_event_closed; assumption | reflexivity].
    + apply step_not_ready.
  - destruct (Chan.recv (warningsStream s)) as [warnings rest| |] eqn:Hrecv.
    + eapply step_result_exit;
        [apply consistent_warnings; assumption | reflexivity].
    + eapply step_result_exit;
        [apply consistent_warnings_closed; assumption | reflexivity].
    + apply step_not_ready.
Qed.

(** Receiving from the error stream never leaves the loop at its [select]. *)
Lemma iteration_error_case cfg app s :
  match Chan.recv (errorStream s) with
  | Chan.Value err rest =>
      exists s', iteration cfg app s CaseError = Returned err s' /\
                 ui s' = ui s /\ history s' = history s ++ [GotError err]
  | Chan.EndOfStream =>
      exists s', iteration cfg app s CaseError = Returned ErrNil s' /\
                 ui s' = ui s /\ history s' = history s ++ [ErrorStreamClosed]
  | Chan.WouldBlock => iteration cfg app s CaseError = NotReady s
  end.
Proof.
  unfold iteration.
  destruct (Chan.recv (errorStream s)); eauto.
Qed.

(** Every state in which the loop is at its [select] is consistent, and the
    exit test has failed in it. *)
Lemma selecting_consistent cfg app ev ws er schedule s :
  processApplyStreams cfg app ev ws er schedule = Selecting s ->
  consistent cfg app (Chan.pending ev) s /\ running s.
Proof.
  unfold processApplyStreams.
  destruct (consistent_entry cfg app ev ws er) as [Hc Hr].
  revert Hc Hr. generalize (entry ev ws er) as s0. revert s.
  induction schedule as [|p later IH]; intros s s0 Hc Hr; simpl.
  - intros H. inversion H; subst. auto.
  - destruct p.
    + pose proof (iteration_step_result cfg app _ s0 CaseEvent Hc eq_refl) as St.
      destruct St; try discriminate. eauto.
    + pose proof (iteration_step_result cfg app _ s0 CaseWarnings Hc eq_refl)
        as St.
      destruct St; try discriminate. eauto.
    + pose proof (iteration_error_case cfg app s0) as He.
      destruct (Chan.recv (errorStream s0)).
      * destruct He as [s' [-> _]]. discriminate.
      * destruct He as [s' [-> _]]. discriminate.
      * rewrite He. discriminate.
Qed.

Lemma selecting_error_stream cfg app ev ws er schedule s :
  processApplyStreams cfg app ev ws er schedule = Selecting s ->
  errorStream s = er.
Proof.
  unfold processApplyStreams.
  assert (H0 : errorStream (entry ev ws er) = er) by reflexivity.
  revert H0. generalize (entry ev ws er) as s0. revert s.
  induction schedule as [|p later IH]; intros s s0 H0; simpl.
  - intros H. inversion H; subst. reflexivity.
  - destruct (iteration cfg app s0 p) as [err s1|s1|s1] eqn:It;
      try discriminate.
    apply IH. rewrite <- H0. clear - It.
    unfold iteration, loop_exit in It.
    destruct p.
    + destruct (Chan.recv (eventStream s0)); try discriminate.
      * destruct (processEvent cfg app a (ui s0)) as [[c err] u'].
        destruct (is_nil err); try discriminate.
        match type of It with
        | (if ?b then _ else _) = _ => destruct b
        end; inversion It; reflexivity.
      * match type of It with
        | (if ?b then _ else _) = _ => destruct b
        end; inversion It; reflexivity.
    + destruct (Chan.recv (warningsStream s0)); try discriminate;
        match type of It with
        | (if ?b then _ else _) = _ => destruct b
        end; inversion It; reflexivity.
    + destruct (Chan.recv (errorStream s0)); discriminate.
Qed.

(** Receiving the closure of the error stream returns nil at once, from any
    state: the [return err] of the error case is outside its [if !ok]. *)
Lemma error_stream_closure_returns_nil cfg app s :
  Chan.recv (errorStream s) = Chan.EndOfStream ->
  exists s', iteration cfg app s CaseError = Returned ErrNil s' /\
             ui s' = ui s /\
             eventClosed s' = eventClosed s /\ complete s' = complete s.
Proof.
  intros H. unfold iteration. rewrite H. eexists. repeat split.
Qed.

(** X6.  Apart from the error case, a run whose events stream carries no
    terminal marker never returns, provided the current-user lookup
    succeeds. *)
Lemma never_returns_without_terminal cfg app ev ws er schedule :
  forallb not_error_case schedule = true ->
  ~ In Complete (Chan.pending ev) ->
  is_nil (snd (CurrentUser cfg)) = true ->
  result (processApplyStreams cfg app ev ws er schedule) = None.
Proof.
  intros Hsched Hno Hlookup. unfold processApplyStreams.
  apply (apply_loop_elim cfg app not_error_case
           (fun s => consistent cfg app (Chan.pending ev) s)
           (fun o => result o = None));
    [ | | exact Hsched | apply consistent_entry ].
  - reflexivity.
  - intros s p Hc Hp.
    destruct (iteration_step_result cfg app _ s p Hc Hp)
      as [s' c Hc' Hr' Hh | s' c Hc' E1 E2 E3 Hh
          | err s' event Hnil Herr Hev Hh Hevs Hu | ].
    + exact Hc'.
    + exfalso. apply Hno.
      apply (c_complete _ _ _ _ Hc') in E3. apply last_event_in in E3.
      apply in_events_of in E3.
      rewrite (c_events _ _ _ _ Hc'). apply in_or_app. left. exact E3.
    + rewrite Herr in Hnil. congruence.
    + reflexivity.
Qed.

(** X7.  Receiving the terminal marker records it and does not end the run:
    the events stream cannot have been seen to close yet, so the exit test
    of that iteration fails. *)
Lemma terminal_marker_does_not_stop cfg app ev ws er schedule s rest :
  processApplyStreams cfg app ev ws er schedule = Selecting s ->
  Chan.recv (eventStream s) = Chan.Value Complete rest ->
  iteration cfg app s CaseEvent =
    Selecting (mkLoop false (warningsClosed s) true
                 rest (warningsStream s) (errorStream s)
                 (ui s) (history s ++ [GotEvent Complete])).
Proof.
  intros Hrun Hrecv.
  destruct (selecting_consistent _ _ _ _ _ _ _ Hrun) as [Hc _].
  assert (Hopen : eventClosed s = false).
  { destruct (eventClosed s) eqn:E; [|reflexivity].
    rewrite (c_event_drained _ _ _ _ Hc E) in Hrecv. discriminate. }
  unfold iteration. rewrite Hrecv. simpl. unfold loop_exit. simpl.
  rewrite Hopen. reflexivity.
Qed.

(** ** Lemmas on rendering *)

Lemma batches_of_split h earlier batch later :
  batches_of h = earlier ++ batch :: later ->
  exists h1 h2,
    h = h1 ++ GotWarnings batch :: h2 /\
    batches_of h1 = earlier /\ batches_of h2 = later.
Proof.
  revert earlier. induction h as [|c h IH]; intros earlier Hb.
  - destruct earlier; discriminate.
  - destruct c; simpl in Hb;
      try (destruct (IH _ Hb) as [h1 [h2 [Hh [H1 H2]]]];
           eexists (_ :: h1), h2; rewrite Hh; simpl; auto).
    destruct earlier as [|b earlier]; simpl in Hb; inversion Hb; subst.
    + exists [], h. auto.
    + destruct (IH _ H1) as [h1 [h2 [Hh [H1' H2]]]].
      exists (GotWarnings b :: h1), h2. rewrite Hh. simpl.
      rewrite H1'. auto.
Qed.

Lemma final_loop_exit s : final (loop_exit s) = s.
Proof. unfold loop_exit. destruct (_ && _); reflexivity. Qed.

Lemma iteration_rendering cfg app batches0 s p :
  rendering_consistent cfg app batches0 s ->
  rendering_consistent cfg app batches0 (final (iteration cfg app s p)).
Proof.
  intros [Hu Hb]. unfold iteration. destruct p.
  - destruct (Chan.recv (eventStream s)) as [event rest| |] eqn:Hrecv.
    + rewrite processEvent_appends.
      assert (Hs : rendering_consistent cfg app batches0
        (mkLoop (eventClosed s) (warningsClosed s)
           (fst (fst (processEvent cfg app event [])))
           rest (warningsStream s) (errorStream s)
           (ui s ++ calls_of cfg app (GotEvent event))
           (history s ++ [GotEvent event]))).
      { split; simpl.
        - rewrite flat_map_app, Hu. simpl. rewrite app_nil_r. reflexivity.
        - rewrite batches_of_app. simpl. rewrite app_nil_r. exact Hb. }
      destruct (is_nil _); [rewrite final_loop_exit|]; exact Hs.
    + rewrite final_loop_exit. split; simpl.
      * rewrite flat_map_app, Hu. simpl. rewrite app_nil_r. reflexivity.
      * rewrite batches_of_app. simpl. rewrite app_nil_r. exact Hb.
    + split; assumption.
  - destruct (Chan.recv (warningsStream s)) as [warnings rest| |] eqn:Hrecv.
    + rewrite final_loop_exit. split; simpl.
      * rewrite flat_map_app, Hu. reflexivity.
      * rewrite batches_of_app. simpl. rewrite <- app_assoc. simpl.
        rewrite <- (recv_Value _ _ _ Hrecv). exact Hb.
    + rewrite final_loop_exit. split; simpl.
      * rewrite flat_map_app, Hu. reflexivity.
      * rewrite batches_of_app. simpl. rewrite app_nil_r. exact Hb.
    + split; assumption.
  - destruct (Chan.recv (errorStream s)) as [err rest| |] eqn:Hrecv.
    + split; simpl.
      * rewrite flat_map_app, Hu. simpl. rewrite app_nil_r. reflexivity.
      * rewrite batches_of_app. simpl. rewrite app_nil_r. exact Hb.
    + split; simpl.
      * rewrite flat_map_app, Hu. simpl. rewrite app_nil_r. reflexivity.
      * rewrite batches_of_app. simpl. rewrite app_nil_r. exact Hb.
    + split; assumption.
Qed.

Lemma apply_loop_rendering cfg app batches0 schedule s :
  rendering_consistent cfg app batches0 s ->
  rendering_consistent cfg app batches0 (final (apply_loop cfg app schedule s)).
Proof.
  revert s. induction schedule as [|p later IH]; intros s Hs; simpl.
  - exact Hs.
  - pose proof (iteration_rendering cfg app batches0 s p Hs) as Hit.
    destruct (iteration cfg app s p) as [err s'|s'|s']; simpl in Hit; auto.
Qed.

Lemma warning_lines_of_history cfg app h :
  warning_lines (rendered (flat_map (calls_of cfg app) h))
    = List.concat (batches_of h).
Proof.
  induction h as [|c h IH]; [reflexivity|].
  change (flat_map (calls_of cfg app) (c :: h))
    with (calls_of cfg app c ++ flat_map (calls_of cfg app) h).
  rewrite rendered_app, warning_lines_app, IH.
  destruct c; simpl batches_of; simpl List.concat.
  - rewrite event_calls_no_warning. reflexivity.
  - reflexivity.
  - simpl. rewrite app_nil_r, warning_lines_map. reflexivity.
  - reflexivity.
  - reflexivity.
  - reflexivity.
Qed.

(** [complete] is assigned at every event: an event received after the
    terminal marker clears it, and the exit test then fails although both
    closures and the marker have been received. *)
Lemma complete_is_overwritten :
  result (processApplyStreams admin_config some_app
            (Chan.Make [Complete; RouteCreated] true) closed_empty open_empty
            [CaseEvent; CaseEvent; CaseEvent; CaseWarnings]) = None /\
  history (final (processApplyStreams admin_config some_app
            (Chan.Make [Complete; RouteCreated] true) closed_empty open_empty
            [CaseEvent; CaseEvent; CaseEvent; CaseWarnings]))
    = [GotEvent Complete; GotEvent RouteCreated; EventStreamClosed;
       WarningsStreamClosed].
Proof. split; reflexivity. Qed.

(** ** C1: when the run returns success *)

Lemma C1_counterexample :
  ~ (forall cfg app ev ws er schedule err,
       Chan.pending er = [] ->
       result (processApplyStreams cfg app ev ws er schedule) = Some err ->
       let h := history (final (processApplyStreams cfg app ev ws er schedule)) in
       err = ErrNil /\ In EventStreamClosed h /\
       In WarningsStreamClosed h /\ In (GotEvent Complete) h).
Proof.
  intros H.
  specialize (H logged_out_config some_app
                (Chan.Make [ApplicationCreated; Complete] true)
                closed_empty open_empty [CaseEvent]
                (ErrValue "not logged in") eq_refl eq_refl).
  destruct H as [H _]. discriminate H.
Qed.

(** C1 (amended).  On every schedule that never chooses the error case, and
    with the terminal marker the last value of the events stream when it
    occurs: [processApplyStreams] has returned nil exactly when the closure
    of the events stream, the closure of the warnings stream and the
    [Complete] event have all been received; the only other value it
    returns is the error of the current-user lookup, raised while rendering
    [ApplicationCreated] or [ApplicationUpdated]. *)
Theorem success_iff_closed_and_complete cfg app ev ws er schedule :
  forallb not_error_case schedule = true ->
  terminal_last (Chan.pending ev) = true ->
  (result (processApplyStreams cfg app ev ws er schedule) = Some ErrNil <->
   In EventStreamClosed
      (history (final (processApplyStreams cfg app ev ws er schedule))) /\
   In WarningsStreamClosed
      (history (final (processApplyStreams cfg app ev ws er schedule))) /\
   In (GotEvent Complete)
      (history (final (processApplyStreams cfg app ev ws er schedule)))) /\
  (forall err,
     result (processApplyStreams cfg app ev ws er schedule) = Some err ->
     err <> ErrNil ->
     err = snd (CurrentUser cfg) /\
     exists h event,
       history (final (processApplyStreams cfg app ev ws er schedule)) =
         h ++ [GotEvent event] /\
       (event = ApplicationCreated \/ event = ApplicationUpdated)).
Proof.
  intros Hsched Hlast. unfold processApplyStreams.
  set (P := fun s => consistent cfg app (Chan.pending ev) s /\ running s).
  set (Q := fun o =>
    (result o = Some ErrNil <->
     In EventStreamClosed (history (final o)) /\
     In WarningsStreamClosed (history (final o)) /\
     In (GotEvent Complete) (history (final o))) /\
    (forall err, result o = Some err -> err <> ErrNil ->
       err = snd (CurrentUser cfg) /\
       exists h event, history (final o) = h ++ [GotEvent event] /\
         (event = ApplicationCreated \/ event = ApplicationUpdated))).
  assert (Hwait : forall s o, P s -> final o = s -> result o = None -> Q o).
  { intros s o [Hc Hr] Hf Hres. unfold Q. rewrite Hres, Hf. split.
    - split; [discriminate|]. intros [H1 [H2 H3]]. exfalso.
      pose proof (c_events _ _ _ _ Hc) as Hev. rewrite Hev in Hlast.
      destruct (terminal_received_is_last _ _ Hlast H3) as [Hl _].
      apply (c_eventClosed _ _ _ _ Hc) in H1.
      apply (c_warningsClosed _ _ _ _ Hc) in H2.
      apply (c_complete _ _ _ _ Hc) in Hl.
      unfold running in Hr. rewrite H1, H2, Hl in Hr. discriminate.
    - intros err H. discriminate. }
  change (Q (apply_loop cfg app schedule (entry ev ws er))).
  apply (apply_loop_elim cfg app not_error_case P Q);
    [ | | exact Hsched | apply consistent_entry ].
  - intros s HP. apply (Hwait s); auto.
  - intros s p [Hc Hr] Hp.
    destruct (iteration_step_result cfg app _ s p Hc Hp)
      as [s' c Hc' Hr' Hh | s' c Hc' E1 E2 E3 Hh
          | err s' event Hnil Herr Hev Hh Hevs Hu | ].
    + split; assumption.
    + unfold Q; simpl. split.
      * split; [intros _|reflexivity].
        repeat split.
        -- apply (c_eventClosed _ _ _ _ Hc'), E1.
        -- apply (c_warningsClosed _ _ _ _ Hc'), E2.
        -- apply last_event_in, (c_complete _ _ _ _ Hc'), E3.
      * intros err H Hne. inversion H; subst. congruence.
    + unfold Q; simpl. split.
      * split.
        -- intros H. inversion H as [He]. rewrite He in Hnil.
           discriminate Hnil.
        -- intros [_ [_ H3]]. exfalso.
           rewrite Hevs in Hlast.
           destruct (terminal_received_is_last _ _ Hlast H3) as [Hl _].
           rewrite Hh, last_event_snoc_event in Hl.
           destruct Hev; congruence.
      * intros err' H _. inversion H; subst err'. split; [exact Herr|].
        exists (history s), event. auto.
    + apply (Hwait s); [split; assumption | reflexivity | reflexivity].
Qed.

Lemma success_iff_closed_and_complete_witness :
  (result (processApplyStreams admin_config some_app
             (Chan.Make [RouteCreated; Complete] true)
             (Chan.Make [["disk quota near limit"]] true) open_empty
             [CaseEvent; CaseEvent; CaseWarnings; CaseEvent; CaseWarnings])
     = Some ErrNil <->
   In EventStreamClosed
      (history (final (processApplyStreams admin_config some_app
             (Chan.Make [RouteCreated; Complete] true)
             (Chan.Make [["disk quota near limit"]] true) open_empty
             [CaseEvent; CaseEvent; CaseWarnings; CaseEvent; CaseWarnings]))) /\
   In WarningsStreamClosed
      (history (final (processApplyStreams admin_config some_app
             (Chan.Make [RouteCreated; Complete] true)
             (Chan.Make [["disk quota near limit"]] true) open_empty
             [CaseEvent; CaseEvent; CaseWarnings; CaseEvent; CaseWarnings]))) /\
   In (GotEvent Complete)
      (history (final (processApplyStreams admin_config some_app
             (Chan.Make [RouteCreated; Complete] true)
             (Chan.Make [["disk quota near limit"]] true) open_empty
             [CaseEvent; CaseEvent; CaseWarnings; CaseEvent; CaseWarnings])))).
Proof.
  apply (success_iff_closed_and_complete admin_config some_app
           (Chan.Make [RouteCreated; Complete] true)
           (Chan.Make [["disk quota near limit"]] true) open_empty
           [CaseEvent; CaseEvent; CaseWarnings; CaseEvent; CaseWarnings]);
    reflexivity.
Defined.

(** ** C2: an error received on the error stream *)

(** C2.  Whatever has been received before ([before] may be empty), when the
    [select] receives the value [err] from the error stream
    [processApplyStreams] returns [err] itself, and the UI log at the return
    is the log as it was before the error was received: nothing is rendered
    afterwards, whatever the schedule would have chosen next. *)
Theorem error_returned_unchanged cfg app ev ws er before later s err rest :
  processApplyStreams cfg app ev ws er before = Selecting s ->
  Chan.recv er = Chan.Value err rest ->
  result (processApplyStreams cfg app ev ws er (before ++ CaseError :: later))
    = Some err /\
  ui (final (processApplyStreams cfg app ev ws er
               (before ++ CaseError :: later))) = ui s /\
  history (final (processApplyStreams cfg app ev ws er
                    (before ++ CaseError :: later)))
    = history s ++ [GotError err].
Proof.
  intros Hb Hrecv.
  pose proof (selecting_error_stream _ _ _ _ _ _ _ Hb) as Her.
  unfold processApplyStreams in *.
  rewrite apply_loop_app, Hb.
  change (apply_loop cfg app (CaseError :: later) s)
    with (match iteration cfg app s CaseError with
          | Selecting s' => apply_loop cfg app later s'
          | o => o
          end).
  pose proof (iteration_error_case cfg app s) as He.
  rewrite Her, Hrecv in He. destruct He as [s' [-> [Hu Hh]]].
  simpl. auto.
Qed.

Lemma error_returned_unchanged_witness :
  result (processApplyStreams admin_config some_app
            (Chan.Make [ApplicationCreated; RouteCreated] false)
            (Chan.Make [["disk quota near limit"]] false)
            (Chan.Make [ErrValue "upload failed"] false)
            ([CaseEvent] ++ CaseError :: [CaseEvent; CaseWarnings]))
    = Some (ErrValue "upload failed") /\
  ui (final (processApplyStreams admin_config some_app
            (Chan.Make [ApplicationCreated; RouteCreated] false)
            (Chan.Make [["disk quota near limit"]] false)
            (Chan.Make [ErrValue "upload failed"] false)
            ([CaseEvent] ++ CaseError :: [CaseEvent; CaseWarnings])))
    = [DisplayTextWithFlavor creating_template
         (flavor_vars admin_config some_app (mkUser "admin"))] /\
  history (final (processApplyStreams admin_config some_app
            (Chan.Make [ApplicationCreated; RouteCreated] false)
            (Chan.Make [["disk quota near limit"]] false)
            (Chan.Make [ErrValue "upload failed"] false)
            ([CaseEvent] ++ CaseError :: [CaseEvent; CaseWarnings])))
    = [GotEvent ApplicationCreated] ++ [GotError (ErrValue "upload failed")].
Proof.
  apply (error_returned_unchanged admin_config some_app
           (Chan.Make [ApplicationCreated; RouteCreated] false)
           (Chan.Make [["disk quota near limit"]] false)
           (Chan.Make [ErrValue "upload failed"] false)
           [CaseEvent] [CaseEvent; CaseWarnings]
           (mkLoop false false false
              (Chan.Make [RouteCreated] false)
              (Chan.Make [["disk quota near limit"]] false)
              (Chan.Make [ErrValue "upload failed"] false)
              [DisplayTextWithFlavor creating_template
                 (flavor_vars admin_config some_app (mkUser "admin"))]
              [GotEvent ApplicationCreated])
           (ErrValue "upload failed") (Chan.Make [] false));
    reflexivity.
Defined.

(** ** C3: rendering and the current-user lookup *)

Lemma C3_counterexample :
  ~ (forall cfg app ev ws er schedule err,
       result (processApplyStreams cfg app ev ws er schedule) = Some err ->
       err <> ErrNil ->
       In (GotError err)
          (history (final (processApplyStreams cfg app ev ws er schedule)))).
Proof.
  intros H.
  assert (Hne : ErrValue "not logged in" <> ErrNil) by discriminate.
  specialize (H logged_out_config some_app
                (Chan.Make [ApplicationCreated] false) open_empty open_empty
                [CaseEvent] (ErrValue "not logged in") eq_refl Hne).
  simpl in H. destruct H as [H|[]]. discriminate H.
Qed.

(** C3 (amended).  In every state the loop reaches, when the events stream
    delivers [event] there are two cases and no other.  If [event] is
    [ApplicationCreated] or [ApplicationUpdated] and the current-user
    lookup fails, [processEvent] displays nothing and returns the lookup
    error, the iteration returns that error, and so does
    [processApplyStreams], with the UI as it was before the event,
    whatever the schedule would have chosen next.  Otherwise
    [processEvent] returns no error and displays one line, or none for
    the terminal marker and for an event the [switch] does not name, and
    the iteration goes on to the exit test. *)
Theorem rendering_aborts_exactly_on_failed_lookup
    cfg app ev ws er before s event rest later :
  processApplyStreams cfg app ev ws er before = Selecting s ->
  Chan.recv (eventStream s) = Chan.Value event rest ->
  if looks_up_user event && negb (is_nil (snd (CurrentUser cfg)))
  then
    snd (CurrentUser cfg) <> ErrNil /\
    processEvent cfg app event (ui s) = (false, snd (CurrentUser cfg), ui s) /\
    iteration cfg app s CaseEvent =
      Returned (snd (CurrentUser cfg))
        (mkLoop (eventClosed s) (warningsClosed s) false
           rest (warningsStream s) (errorStream s)
           (ui s) (history s ++ [GotEvent event])) /\
    result (processApplyStreams cfg app ev ws er
              (before ++ CaseEvent :: later)) = Some (snd (CurrentUser cfg)) /\
    ui (final (processApplyStreams cfg app ev ws er
                 (before ++ CaseEvent :: later))) = ui s
  else
    processEvent cfg app event (ui s) =
      (is_terminal event, ErrNil, ui s ++ calls_of cfg app (GotEvent event)) /\
    List.length (rendered (calls_of cfg app (GotEvent event)))
      = (if displays_text event then 1 else 0) /\
    iteration cfg app s CaseEvent =
      loop_exit
        (mkLoop (eventClosed s) (warningsClosed s) (is_terminal event)
           rest (warningsStream s) (errorStream s)
           (ui s ++ calls_of cfg app (GotEvent event))
           (history s ++ [GotEvent event])).
Proof.
  intros Hrun Hrecv.
  destruct (looks_up_user event && negb (is_nil (snd (CurrentUser cfg))))
    eqn:Hcase.
  - apply andb_true_iff in Hcase. destruct Hcase as [Hev Hfail].
    apply negb_true_iff in Hfail.
    assert (Hpe : processEvent cfg app event (ui s)
                  = (false, snd (CurrentUser cfg), ui s)).
    { destruct event; try discriminate Hev; simpl;
        destruct (CurrentUser cfg) as [user err]; simpl in *;
        rewrite Hfail; reflexivity. }
    assert (Hit : iteration cfg app s CaseEvent =
              Returned (snd (CurrentUser cfg))
                (mkLoop (eventClosed s) (warningsClosed s) false
                   rest (warningsStream s) (errorStream s)
                   (ui s) (history s ++ [GotEvent event]))).
    { unfold iteration. rewrite Hrecv, Hpe, Hfail. reflexivity. }
    split; [intros H; rewrite H in Hfail; discriminate|].
    split; [exact Hpe|]. split; [exact Hit|].
    unfold processApplyStreams in *. rewrite apply_loop_app, Hrun.
    change (apply_loop cfg app (CaseEvent :: later) s)
      with (match iteration cfg app s CaseEvent with
            | Selecting s' => apply_loop cfg app later s'
            | o => o
            end).
    rewrite Hit. split; reflexivity.
  - assert (Hpe : processEvent cfg app event (ui s) =
              (is_terminal event, ErrNil,
               ui s ++ calls_of cfg app (GotEvent event))
              /\ List.length (rendered (calls_of cfg app (GotEvent event)))
                 = (if displays_text event then 1 else 0)).
    { apply andb_false_iff in Hcase. destruct Hcase as [Hev | Hok].
      - rewrite processEvent_appends. unfold calls_of.
        destruct event; try discriminate Hev; simpl;
          rewrite ?app_nil_r; auto.
      - apply negb_false_iff in Hok. split.
        + apply processEvent_no_error. exact Hok.
        + apply (event_lines_count cfg app event Hok). }
    destruct Hpe as [Hpe Hlen]. split; [exact Hpe|]. split; [exact Hlen|].
    unfold iteration. rewrite Hrecv, Hpe. reflexivity.
Qed.

Lemma rendering_aborts_exactly_on_failed_lookup_witness :
  ErrValue "not logged in" <> ErrNil /\
  processEvent logged_out_config some_app ApplicationUpdated
    [DisplayText "Creating routes..."]
    = (false, ErrValue "not logged in", [DisplayText "Creating routes..."]) /\
  iteration logged_out_config some_app
    (mkLoop false false false (Chan.Make [ApplicationUpdated; Complete] true)
       closed_empty closed_empty [DisplayText "Creating routes..."]
       [GotEvent RouteCreated]) CaseEvent
    = Returned (ErrValue "not logged in")
        (mkLoop false false false (Chan.Make [Complete] true)
           closed_empty closed_empty [DisplayText "Creating routes..."]
           ([GotEvent RouteCreated] ++ [GotEvent ApplicationUpdated])) /\
  result (processApplyStreams logged_out_config some_app
            (Chan.Make [RouteCreated; ApplicationUpdated; Complete] true)
            closed_empty closed_empty
            ([CaseEvent] ++ CaseEvent :: [CaseEvent; CaseWarnings]))
    = Some (ErrValue "not logged in") /\
  ui (final (processApplyStreams logged_out_config some_app
            (Chan.Make [RouteCreated; ApplicationUpdated; Complete] true)
            closed_empty closed_empty
            ([CaseEvent] ++ CaseEvent :: [CaseEvent; CaseWarnings])))
    = [DisplayText "Creating routes..."].
Proof.
  exact (rendering_aborts_exactly_on_failed_lookup logged_out_config some_app
           (Chan.Make [RouteCreated; ApplicationUpdated; Complete] true)
           closed_empty closed_empty [CaseEvent]
           (mkLoop false false false
              (Chan.Make [ApplicationUpdated; Complete] true)
              closed_empty closed_empty [DisplayText "Creating routes..."]
              [GotEvent RouteCreated])
           ApplicationUpdated (Chan.Make [Complete] true)
           [CaseEvent; CaseWarnings] eq_refl eq_refl).
Defined.

(** ** C4: a stream recorded as closed stays in the select *)

Lemma C4_counterexample :
  ~ (forall cfg app ev ws er schedule h1 c h2 c',
       history (final (processApplyStreams cfg app ev ws er schedule))
         = h1 ++ c :: h2 ->
       is_closure c = true ->
       In c' h2 ->
       stream_of c' <> stream_of c).
Proof.
  intros H.
  apply (H admin_config some_app closed_empty open_empty open_empty
           [CaseEvent; CaseEvent] [] EventStreamClosed [EventStreamClosed]
           EventStreamClosed eq_refl eq_refl).
  - left. reflexivity.
  - reflexivity.
Qed.

(** C4 (amended).  Recording a closure does not take the stream out of the
    [select].  In every state the loop reaches, an iteration that chooses
    the events stream after its closure was recorded receives the
    end-of-stream signal again, and so does one that chooses the warnings
    stream after its closure was recorded: the three variables and the
    channels are unchanged, no line is rendered, and the loop goes round
    again. *)
Theorem closed_stream_is_read_again cfg app ev ws er schedule s :
  processApplyStreams cfg app ev ws er schedule = Selecting s ->
  (eventClosed s = true ->
   iteration cfg app s CaseEvent =
     Selecting (mkLoop (eventClosed s) (warningsClosed s) (complete s)
                  (eventStream s) (warningsStream s) (errorStream s)
                  (ui s) (history s ++ [EventStreamClosed]))) /\
  (warningsClosed s = true ->
   iteration cfg app s CaseWarnings =
     Selecting (mkLoop (eventClosed s) (warningsClosed s) (complete s)
                  (eventStream s) (warningsStream s) (errorStream s)
                  (ui s ++ [DisplayWarnings []])
                  (history s ++ [WarningsStreamClosed])) /\
   rendered (ui s ++ [DisplayWarnings []]) = rendered (ui s)).
Proof.
  intros Hrun.
  destruct (selecting_consistent _ _ _ _ _ _ _ Hrun) as [Hc Hr].
  unfold running in Hr. split; intros Hcl.
  - unfold iteration. rewrite (c_event_drained _ _ _ _ Hc Hcl).
    unfold loop_exit. simpl. rewrite Hcl in *. simpl in *. rewrite Hr.
    reflexivity.
  - split.
    + unfold iteration. rewrite (c_warnings_drained _ _ _ _ Hc Hcl).
      unfold loop_exit. simpl. rewrite Hcl in *.
      rewrite andb_true_r in Hr. rewrite andb_true_r, Hr. reflexivity.
    + rewrite rendered_app. simpl. apply app_nil_r.
Qed.

Lemma closed_stream_is_read_again_witness :
  iteration admin_config some_app
    (mkLoop true false false closed_empty
       (Chan.Make [["disk quota near limit"]] true) open_empty
       [] [EventStreamClosed]) CaseEvent
  = Selecting
      (mkLoop true false false closed_empty
         (Chan.Make [["disk quota near limit"]] true) open_empty
         [] ([EventStreamClosed] ++ [EventStreamClosed])).
Proof.
  apply (closed_stream_is_read_again admin_config some_app closed_empty
           (Chan.Make [["disk quota near limit"]] true) open_empty
           [CaseEvent]
           (mkLoop true false false closed_empty
              (Chan.Make [["disk quota near limit"]] true) open_empty
              [] [EventStreamClosed])
           eq_refl).
  reflexivity.
Defined.

(** ** C5: after the terminal marker *)

(** C5.  Scenario C.  When the [select] receives the batch and the two
    closures after the terminal marker, the warning is rendered and the run
    returns nil.  When it receives the closure of the error stream right
    after the terminal marker, the run returns nil there: the batch is still
    on the warnings stream, unrendered, and neither the events nor the
    warnings stream has been seen to close. *)
Theorem scenario_C_error_closure_ends_run_early :
  (result (scenario_C admin_config
             [CaseEvent; CaseWarnings; CaseEvent; CaseWarnings]) = Some ErrNil /\
   rendered (ui (final (scenario_C admin_config
             [CaseEvent; CaseWarnings; CaseEvent; CaseWarnings])))
     = [WarningLine "disk quota near limit"]) /\
  (result (scenario_C admin_config [CaseEvent]) = None /\
   complete (final (scenario_C admin_config [CaseEvent])) = true) /\
  (result (scenario_C admin_config [CaseEvent; CaseError]) = Some ErrNil /\
   rendered (ui (final (scenario_C admin_config [CaseEvent; CaseError]))) = [] /\
   history (final (scenario_C admin_config [CaseEvent; CaseError]))
     = [GotEvent Complete; ErrorStreamClosed] /\
   eventClosed (final (scenario_C admin_config [CaseEvent; CaseError]))
     = false /\
   Chan.pending
     (warningsStream (final (scenario_C admin_config [CaseEvent; CaseError])))
     = [["disk quota near limit"]]).
Proof. repeat split; reflexivity. Qed.

(** ** C6: scenario A *)

(** C6.  Scenario A.  When the [select] receives the six events and the
    closures of the events and warnings streams, the run returns nil with
    five lines rendered.  When its first choice is the closed error stream,
    the run returns nil with no line rendered; when it makes that choice
    after two events, with two lines rendered. *)
Theorem scenario_A_error_closure_ends_run_early :
  (result (scenario_A admin_config
             [CaseEvent; CaseEvent; CaseEvent; CaseEvent; CaseEvent;
              CaseEvent; CaseEvent; CaseWarnings]) = Some ErrNil /\
   List.length (rendered (ui (final (scenario_A admin_config
             [CaseEvent; CaseEvent; CaseEvent; CaseEvent; CaseEvent;
              CaseEvent; CaseEvent; CaseWarnings])))) = 5) /\
  (result (scenario_A admin_config [CaseError]) = Some ErrNil /\
   List.length (rendered (ui (final (scenario_A admin_config [CaseError])))) = 0) /\
  (result (scenario_A admin_config [CaseEvent; CaseEvent; CaseError])
     = Some ErrNil /\
   List.length (rendered (ui (final (scenario_A admin_config
             [CaseEvent; CaseEvent; CaseError])))) = 2).
Proof. repeat split; reflexivity. Qed.

(** ** C7: events stream closed without the terminal marker *)

(** C7.  Scenario D.  With the error stream open and silent the loop is
    still at its [select] after both closures, the exit test failing for
    want of the terminal marker.  With the error stream closed, and no error
    ever sent on it, the run returns nil as soon as the [select] receives
    that closure. *)
Theorem scenario_D_error_closure_returns_nil :
  (result (scenario_D admin_config open_empty
             [CaseEvent; CaseEvent; CaseEvent; CaseWarnings; CaseEvent])
     = None /\
   complete (final (scenario_D admin_config open_empty
             [CaseEvent; CaseEvent; CaseEvent; CaseWarnings; CaseEvent]))
     = false) /\
  result (scenario_D admin_config closed_empty
            [CaseEvent; CaseEvent; CaseEvent; CaseWarnings; CaseError])
    = Some ErrNil /\
  ~ In (GotEvent Complete)
      (history (final (scenario_D admin_config closed_empty
            [CaseEvent; CaseEvent; CaseEvent; CaseWarnings; CaseError]))).
Proof.
  repeat split; try reflexivity.
  simpl. intros H.
  repeat (destruct H as [H|H]; [discriminate H|]). exact H.
Qed.

(** ** C8: warning batches in the output *)

(** C8.  Stated on the warnings channel and the output alone.  In every
    run, the batches that have left the warnings channel are its first
    batches, and the warning lines of the output are exactly these
    batches, one after the other.  Each of them stands in the output as
    one contiguous group of lines, its warnings in their order, after the
    lines of the batches taken before it and before the lines of the
    batches taken after it, wherever progress lines fall between.  And in
    every state, when a batch is ready and the [select] chooses the
    warnings case, that batch leaves the channel, is displayed whole, and
    the loop goes on to its exit test. *)
Theorem warning_batches_rendered_in_order cfg app ev ws er schedule :
  (exists taken,
     Chan.pending ws
       = taken ++ Chan.pending
                    (warningsStream
                       (final (processApplyStreams cfg app ev ws er schedule)))
     /\
     warning_lines
       (rendered (ui (final (processApplyStreams cfg app ev ws er schedule))))
       = List.concat taken) /\
  (forall earlier batch later,
     Chan.pending ws
       = earlier ++ batch :: later
         ++ Chan.pending
              (warningsStream
                 (final (processApplyStreams cfg app ev ws er schedule))) ->
     exists before after,
       rendered (ui (final (processApplyStreams cfg app ev ws er schedule)))
         = before ++ map WarningLine batch ++ after /\
       warning_lines before = List.concat earlier /\
       warning_lines after = List.concat later) /\
  (forall s batch rest,
     Chan.recv (warningsStream s) = Chan.Value batch rest ->
     iteration cfg app s CaseWarnings =
       loop_exit
         (mkLoop (eventClosed s) (warningsClosed s) (complete s)
            (eventStream s) rest (errorStream s)
            (ui s ++ [DisplayWarnings batch])
            (history s ++ [GotWarnings batch])) /\
     rendered (ui s ++ [DisplayWarnings batch])
       = rendered (ui s) ++ map WarningLine batch).
Proof.
  unfold processApplyStreams.
  assert (H0 : rendering_consistent cfg app (Chan.pending ws)
                 (entry ev ws er)) by (split; reflexivity).
  destruct (apply_loop_rendering cfg app _ schedule _ H0) as [Hu Hb].
  split; [|split].
  - exists (batches_of
              (history (final (apply_loop cfg app schedule (entry ev ws er))))).
    split; [exact Hb|]. rewrite Hu. apply warning_lines_of_history.
  - intros earlier batch later Hsplit.
    assert (Hbatches :
      batches_of (history (final (apply_loop cfg app schedule
                                    (entry ev ws er))))
      = earlier ++ batch :: later).
    { apply (app_inv_tail
               (Chan.pending
                  (warningsStream
                     (final (apply_loop cfg app schedule (entry ev ws er)))))).
      rewrite <- Hb, Hsplit, <- app_assoc. reflexivity. }
    destruct (batches_of_split _ _ _ _ Hbatches) as [h1 [h2 [Hh [H1 H2]]]].
    exists (rendered (flat_map (calls_of cfg app) h1)),
           (rendered (flat_map (calls_of cfg app) h2)).
    split; [|split].
    + rewrite Hu, Hh. rewrite flat_map_app, rendered_app.
      change (flat_map (calls_of cfg app) (GotWarnings batch :: h2))
        with ([DisplayWarnings batch] ++ flat_map (calls_of cfg app) h2).
      rewrite rendered_app. simpl. rewrite app_nil_r. reflexivity.
    + rewrite warning_lines_of_history, H1. reflexivity.
    + rewrite warning_lines_of_history, H2. reflexivity.
  - intros s batch rest Hrecv. split.
    + unfold iteration. rewrite Hrecv. reflexivity.
    + rewrite rendered_app. simpl. rewrite app_nil_r. reflexivity.
Qed.

Lemma warning_batches_rendered_in_order_witness :
  exists before after,
    rendered (ui (final (processApplyStreams admin_config some_app
      (Chan.Make [RouteCreated; RouteBound; Complete] true)
      (Chan.Make [["quota low"; "disk slow"]; ["stack deprecated"];
                  ["not yet read"]] true)
      open_empty
      [CaseEvent; CaseWarnings; CaseEvent; CaseWarnings; CaseEvent])))
      = before ++ map WarningLine ["stack deprecated"] ++ after /\
    warning_lines before = List.concat [["quota low"; "disk slow"]] /\
    warning_lines after = List.concat [].
Proof.
  apply (warning_batches_rendered_in_order admin_config some_app
           (Chan.Make [RouteCreated; RouteBound; Complete] true)
           (Chan.Make [["quota low"; "disk slow"]; ["stack deprecated"];
                       ["not yet read"]] true)
           open_empty
           [CaseEvent; CaseWarnings; CaseEvent; CaseWarnings; CaseEvent]).
  reflexivity.
Defined.

(** ** C9: the select gives the error stream no priority *)

Lemma C9_counterexample :
  ~ (forall cfg app ev ws er schedule s err rest event rest',
       processApplyStreams cfg app ev ws er schedule = Selecting s ->
       Chan.recv (errorStream s) = Chan.Value err rest ->
       Chan.recv (eventStream s) = Chan.Value event rest' ->
       forall chosen, result (iteration cfg app s chosen) = Some err).
Proof.
  intros H.
  specialize (H admin_config some_app
                (Chan.Make [RouteCreated] true) open_empty
                (Chan.Make [ErrValue "upload failed"] false)
                [] _ (ErrValue "upload failed") open_empty
                RouteCreated closed_empty eq_refl eq_refl eq_refl CaseEvent).
  discriminate H.
Qed.

(** C9 (amended).  With an error ready on the error stream, what an
    iteration does is decided by the case the [select] chooses.  Choosing
    the error case returns the error with nothing more rendered.  Choosing
    the events case while an event is ready renders that event, and choosing
    the warnings case while a batch is ready displays that batch; either way
    the error is left pending on its stream. *)
Theorem error_has_no_priority cfg app s err rest :
  Chan.recv (errorStream s) = Chan.Value err rest ->
  (exists s', iteration cfg app s CaseError = Returned err s' /\
              ui s' = ui s) /\
  (forall event rest',
     Chan.recv (eventStream s) = Chan.Value event rest' ->
     history (final (iteration cfg app s CaseEvent))
       = history s ++ [GotEvent event] /\
     ui (final (iteration cfg app s CaseEvent))
       = ui s ++ calls_of cfg app (GotEvent event) /\
     errorStream (final (iteration cfg app s CaseEvent)) = errorStream s) /\
  (forall warnings rest',
     Chan.recv (warningsStream s) = Chan.Value warnings rest' ->
     history (final (iteration cfg app s CaseWarnings))
       = history s ++ [GotWarnings warnings] /\
     ui (final (iteration cfg app s CaseWarnings))
       = ui s ++ [DisplayWarnings warnings] /\
     errorStream (final (iteration cfg app s CaseWarnings)) = errorStream s).
Proof.
  intros Herr. repeat split.
  - pose proof (iteration_error_case cfg app s) as He. rewrite Herr in He.
    destruct He as [s' [H1 [H2 _]]]. eauto.
  - unfold iteration. rewrite H.
    rewrite processEvent_appends.
    destruct (is_nil _); [|reflexivity].
    unfold loop_exit. destruct (_ && _); reflexivity.
  - unfold iteration. rewrite H.
    rewrite processEvent_appends.
    destruct (is_nil _); [|reflexivity].
    unfold loop_exit. destruct (_ && _); reflexivity.
  - unfold iteration. rewrite H.
    rewrite processEvent_appends.
    destruct (is_nil _); [|reflexivity].
    unfold loop_exit. destruct (_ && _); reflexivity.
  - unfold iteration. rewrite H. unfold loop_exit.
    destruct (_ && _); reflexivity.
  - unfold iteration. rewrite H. unfold loop_exit.
    destruct (_ && _); reflexivity.
  - unfold iteration. rewrite H. unfold loop_exit.
    destruct (_ && _); reflexivity.
Qed.

Lemma error_has_no_priority_witness :
  history (final (iteration admin_config some_app
                    (entry (Chan.Make [RouteCreated] true) open_empty
                           (Chan.Make [ErrValue "upload failed"] false))
                    CaseEvent))
    = [] ++ [GotEvent RouteCreated] /\
  ui (final (iteration admin_config some_app
               (entry (Chan.Make [RouteCreated] true) open_empty
                      (Chan.Make [ErrValue "upload failed"] false))
               CaseEvent))
    = [] ++ calls_of admin_config some_app (GotEvent RouteCreated) /\
  errorStream (final (iteration admin_config some_app
                        (entry (Chan.Make [RouteCreated] true) open_empty
                               (Chan.Make [ErrValue "upload failed"] false))
                        CaseEvent))
    = Chan.Make [ErrValue "upload failed"] false.
Proof.
  apply (error_has_no_priority admin_config some_app
           (entry (Chan.Make [RouteCreated] true) open_empty
                  (Chan.Make [ErrValue "upload failed"] false))
           (ErrValue "upload failed") open_empty eq_refl)
    with (rest' := closed_empty).
  reflexivity.
Defined.

(** ** C10: events the switch does not name *)

(** C10.  For an event that is none of the seven constants of the [switch],
    [processEvent] returns [(false, nil)] and leaves the UI as it was. *)
Theorem unhandled_event_is_ignored cfg app event u :
  event <> ApplicationCreated ->
  event <> ApplicationUpdated ->
  event <> RouteCreated ->
  event <> RouteBound ->
  event <> UploadingApplication ->
  event <> UploadComplete ->
  event <> Complete ->
  processEvent cfg app event u = (false, ErrNil, u).
Proof.
  intros H1 H2 H3 H4 H5 H6 H7.
  destruct event; try congruence. reflexivity.
Qed.

Lemma unhandled_event_is_ignored_witness :
  processEvent logged_out_config some_app (OtherEvent "Staging") []
    = (false, ErrNil, []).
Proof.
  apply (unhandled_event_is_ignored logged_out_config some_app
           (OtherEvent "Staging") []); discriminate.
Defined.

(** ** Further lemmas on the loop *)

Lemma iteration_keeps_error_stream cfg app s p s' :
  iteration cfg app s p = Selecting s' -> errorStream s' = errorStream s.
Proof.
  unfold iteration, loop_exit. intros It. destruct p.
  - destruct (Chan.recv (eventStream s)); try discriminate.
    + destruct (processEvent cfg app a (ui s)) as [[c err] u'].
      destruct (is_nil err); try discriminate.
      destruct (_ && _); inversion It; reflexivity.
    + destruct (_ && _); inversion It; reflexivity.
  - destruct (Chan.recv (warningsStream s)); try discriminate;
      destruct (_ && _); inversion It; reflexivity.
  - destruct (Chan.recv (errorStream s)); discriminate.
Qed.

Lemma last_cons {A : Type} (x : A) l d : last (x :: l) d = last l x.
Proof.
  revert x d. induction l as [|y l IH]; intros x d; [reflexivity|].
  change (last (x :: y :: l) d) with (last (y :: l) d).
  rewrite (IH y d), (IH y x). reflexivity.
Qed.

Lemma iteration_events_in_order cfg app events0 s p :
  events0 = events_of (history s) ++ Chan.pending (eventStream s) ->
  events0 = events_of (history (final (iteration cfg app s p)))
            ++ Chan.pending (eventStream (final (iteration cfg app s p))).
Proof.
  intros H. unfold iteration. destruct p.
  - destruct (Chan.recv (eventStream s)) as [event rest| |] eqn:Hrecv.
    + rewrite processEvent_appends.
      destruct (is_nil _); [rewrite final_loop_exit|]; simpl;
        rewrite events_of_app; simpl; rewrite <- app_assoc; simpl;
        rewrite <- (recv_Value _ _ _ Hrecv); exact H.
    + rewrite final_loop_exit. simpl. rewrite events_of_app. simpl.
      rewrite app_nil_r. exact H.
    + exact H.
  - destruct (Chan.recv (warningsStream s)) as [warnings rest| |];
      try rewrite final_loop_exit; simpl; try rewrite events_of_app; simpl;
      rewrite ?app_nil_r; exact H.
  - destruct (Chan.recv (errorStream s)) as [err rest| |]; simpl;
      try rewrite events_of_app; simpl; rewrite ?app_nil_r; exact H.
Qed.

Lemma apply_loop_events_in_order cfg app events0 schedule s :
  events0 = events_of (history s) ++ Chan.pending (eventStream s) ->
  events0 = events_of (history (final (apply_loop cfg app schedule s)))
            ++ Chan.pending (eventStream (final (apply_loop cfg app schedule s))).
Proof.
  revert s. induction schedule as [|p later IH]; intros s H; simpl.
  - exact H.
  - pose proof (iteration_events_in_order cfg app events0 s p H) as Hit.
    destruct (iteration cfg app s p) as [err s'|s'|s']; simpl in Hit; auto.
Qed.

Lemma text_lines_app l1 l2 :
  text_lines (l1 ++ l2) = text_lines l1 ++ text_lines l2.
Proof.
  induction l1 as [|x l1 IH]; simpl; [reflexivity|].
  destruct x; simpl; rewrite ?IH; reflexivity.
Qed.

Lemma text_lines_warnings ws : text_lines (map WarningLine ws) = [].
Proof. induction ws as [|w ws IH]; simpl; auto. Qed.

Lemma text_lines_event cfg app e :
  text_lines (event_lines cfg app e) = event_lines cfg app e.
Proof.
  unfold event_lines, calls_of.
  destruct e; simpl; try reflexivity;
    destruct (CurrentUser cfg) as [user err]; destruct err; reflexivity.
Qed.

Lemma text_lines_of_history cfg app h :
  text_lines (rendered (flat_map (calls_of cfg app) h))
    = flat_map (event_lines cfg app) (events_of h).
Proof.
  induction h as [|c h IH]; [reflexivity|].
  change (flat_map (calls_of cfg app) (c :: h))
    with (calls_of cfg app c ++ flat_map (calls_of cfg app) h).
  rewrite rendered_app, text_lines_app, IH.
  destruct c; simpl events_of; simpl flat_map; try reflexivity.
  - fold (event_lines cfg app event). rewrite text_lines_event. reflexivity.
  - simpl. rewrite app_nil_r, text_lines_warnings. reflexivity.
Qed.

Lemma count_case_cons c p schedule :
  count_case c (p :: schedule)
    = (if case_eqb c p then 1 else 0) + count_case c schedule.
Proof. unfold count_case. simpl. destruct (case_eqb c p); reflexivity. Qed.

Lemma drain_step cfg app s p :
  is_nil (snd (CurrentUser cfg)) = true ->
  draining s ->
  not_error_case p = true ->
  exists s1,
    iteration cfg app s p = loop_exit s1 /\
    draining s1 /\
    events_of (history s1) ++ Chan.pending (eventStream s1)
      = events_of (history s) ++ Chan.pending (eventStream s) /\
    batches_of (history s1) ++ Chan.pending (warningsStream s1)
      = batches_of (history s) ++ Chan.pending (warningsStream s) /\
    events_left s1
      <= events_left s - (if case_eqb CaseEvent p then 1 else 0) /\
    warnings_left s1
      <= warnings_left s - (if case_eqb CaseWarnings p then 1 else 0).
Proof.
  intros Hok [Hce [Hcw [Hde [Hdw Hcomp]]]] Hp.
  destruct p; [| |discriminate]; unfold iteration, Chan.recv.
  - destruct (Chan.pending (eventStream s)) as [|e q] eqn:Hpend.
    + rewrite Hce. eexists. split; [reflexivity|].
      unfold draining, events_left, warnings_left; simpl.
      rewrite Hpend, events_of_app, batches_of_app. simpl.
      rewrite !app_nil_r.
      repeat split; auto; lia.
    + rewrite processEvent_no_error by exact Hok. simpl.
      eexists. split; [reflexivity|].
      unfold draining, events_left, warnings_left; simpl.
      rewrite events_of_app, batches_of_app. simpl.
      rewrite <- app_assoc, app_nil_r. simpl.
      assert (Hopen : eventClosed s = false).
      { destruct (eventClosed s); [|reflexivity].
        specialize (Hde eq_refl). discriminate. }
      rewrite Hopen, ?Hpend. simpl List.length.
      assert (Hc' : complete_after (is_terminal e) q = true).
      { unfold complete_after in *. simpl map in Hcomp.
        rewrite last_cons in Hcomp. exact Hcomp. }
      repeat split; auto; try discriminate; lia.
  - destruct (Chan.pending (warningsStream s)) as [|w q] eqn:Hpend.
    + rewrite Hcw. eexists. split; [reflexivity|].
      unfold draining, events_left, warnings_left; simpl.
      rewrite Hpend, events_of_app, batches_of_app. simpl.
      rewrite !app_nil_r.
      repeat split; auto; lia.
    + eexists. split; [reflexivity|].
      unfold draining, events_left, warnings_left; simpl.
      rewrite events_of_app, batches_of_app. simpl.
      rewrite app_nil_r, <- app_assoc. simpl.
      assert (Hopen : warningsClosed s = false).
      { destruct (warningsClosed s); [|reflexivity].
        specialize (Hdw eq_refl). discriminate. }
      rewrite Hopen, ?Hpend. simpl List.length.
      repeat split; auto; try discriminate; lia.
Qed.

Lemma drains_to_success cfg app :
  is_nil (snd (CurrentUser cfg)) = true ->
  forall schedule s,
    forallb not_error_case schedule = true ->
    draining s ->
    running s ->
    events_left s <= count_case CaseEvent schedule ->
    warnings_left s <= count_case CaseWarnings schedule ->
    exists s',
      apply_loop cfg app schedule s = Returned ErrNil s' /\
      events_of (history s')
        = events_of (history s) ++ Chan.pending (eventStream s) /\
      batches_of (history s')
        = batches_of (history s) ++ Chan.pending (warningsStream s).
Proof.
  intros Hok schedule.
  induction schedule as [|p later IH]; intros s Hsched Hd Hrun Hne Hnw.
  - exfalso. destruct Hd as [_ [_ [Hde [_ Hcomp]]]].
    unfold events_left, warnings_left, count_case in *. simpl in *.
    destruct (eventClosed s) eqn:E1; [|lia].
    destruct (warningsClosed s) eqn:E2; [|lia].
    rewrite (Hde eq_refl) in Hcomp. unfold complete_after in Hcomp.
    simpl in Hcomp. unfold running in Hrun.
    rewrite E1, E2, Hcomp in Hrun. discriminate.
  - simpl in Hsched. apply andb_true_iff in Hsched.
    destruct Hsched as [Hp Hlater].
    rewrite !count_case_cons in *.
    destruct (drain_step cfg app s p Hok Hd Hp)
      as [s1 [Hit [Hd1 [Hev [Hba [Hle Hlw]]]]]].
    change (apply_loop cfg app (p :: later) s)
      with (match iteration cfg app s p with
            | Selecting s' => apply_loop cfg app later s'
            | o => o
            end).
    rewrite Hit.
    destruct (loop_exit_cases s1) as [[-> [E1 [E2 _]]] | [-> Hr1]].
    + exists s1. split; [reflexivity|].
      destruct Hd1 as [_ [_ [Hde1 [Hdw1 _]]]].
      rewrite (Hde1 E1), app_nil_r in Hev.
      rewrite (Hdw1 E2), app_nil_r in Hba. auto.
    + destruct (IH s1 Hlater Hd1 Hr1) as [s' [Hs' [He' Hb']]].
      * destruct (case_eqb CaseEvent p); lia.
      * destruct (case_eqb CaseWarnings p); lia.
      * exists s'. split; [exact Hs'|]. rewrite He', Hb'. auto.
Qed.

(** ** Further properties of processApplyStreams *)

(** X1.  Whatever the schedule, a value [processApplyStreams] returns is
    nil, or the error of the current-user lookup, or the first value of the
    error stream: no later value of that stream is ever returned. *)
Theorem returned_error_origin cfg app ev ws er schedule err :
  result (processApplyStreams cfg app ev ws er schedule) = Some err ->
  err = ErrNil \/
  err = snd (CurrentUser cfg) \/
  exists rest, Chan.recv er = Chan.Value err rest.
Proof.
  unfold processApplyStreams. revert err.
  apply (apply_loop_elim cfg app (fun _ => true)
           (fun s => consistent cfg app (Chan.pending ev) s /\
                     errorStream s = er)
           (fun o => forall err, result o = Some err ->
                       err = ErrNil \/ err = snd (CurrentUser cfg) \/
                       exists rest, Chan.recv er = Chan.Value err rest)).
  - intros s _ err H. discriminate H.
  - intros s p [Hc He] _.
    destruct (iteration cfg app s p) as [e s'|s'|s'] eqn:It.
    + intros err H. inversion H; subst err. clear H.
      destruct p.
      * pose proof (iteration_step_result cfg app _ s CaseEvent Hc eq_refl)
          as St.
        rewrite It in St. inversion St; subst; auto.
      * pose proof (iteration_step_result cfg app _ s CaseWarnings Hc eq_refl)
          as St.
        rewrite It in St. inversion St; subst; auto.
      * pose proof (iteration_error_case cfg app s) as Hec.
        rewrite He in Hec.
        destruct (Chan.recv er) as [e0 rest| |] eqn:Hr.
        -- destruct Hec as [s1 [H1 _]]. rewrite It in H1.
           inversion H1; subst. right. right. eauto.
        -- destruct Hec as [s1 [H1 _]]. rewrite It in H1.
           inversion H1; subst. auto.
        -- rewrite It in Hec. discriminate.
    + split.
      * destruct p.
        -- pose proof (iteration_step_result cfg app _ s CaseEvent Hc eq_refl)
             as St.
           rewrite It in St. inversion St; subst; assumption.
        -- pose proof (iteration_step_result cfg app _ s CaseWarnings Hc
                         eq_refl) as St.
           rewrite It in St. inversion St; subst; assumption.
        -- pose proof (iteration_error_case cfg app s) as Hec.
           destruct (Chan.recv (errorStream s)).
           ++ destruct Hec as [s1 [H1 _]]. rewrite It in H1. discriminate.
           ++ destruct Hec as [s1 [H1 _]]. rewrite It in H1. discriminate.
           ++ rewrite It in Hec. discriminate.
      * rewrite (iteration_keeps_error_stream _ _ _ _ _ It). exact He.
    + intros err H. discriminate H.
  - clear. induction schedule; simpl; auto.
  - split; [apply consistent_entry | reflexivity].
Qed.

Lemma returned_error_origin_witness :
  ErrValue "quota exceeded" = ErrNil \/
  ErrValue "quota exceeded" = snd (CurrentUser admin_config) \/
  exists rest,
    Chan.recv (Chan.Make [ErrValue "quota exceeded"; ErrValue "timeout"] true)
      = Chan.Value (ErrValue "quota exceeded") rest.
Proof.
  apply (returned_error_origin admin_config some_app
           (Chan.Make [RouteCreated] true) closed_empty
           (Chan.Make [ErrValue "quota exceeded"; ErrValue "timeout"] true)
           [CaseEvent; CaseError; CaseError]).
  reflexivity.
Defined.

(** X2.  With a successful current-user lookup, an events stream that ends
    with the terminal marker and is then closed, and a warnings stream that
    is closed behind its batches, every schedule that never chooses the
    error case and chooses the events case once more than there are events
    and the warnings case once more than there are batches returns nil;
    by then every event and every batch has been received and rendered, in
    stream order. *)
Theorem success_once_streams_are_drained cfg app before batches er schedule :
  is_nil (snd (CurrentUser cfg)) = true ->
  forallb not_error_case schedule = true ->
  List.length before + 2 <= count_case CaseEvent schedule ->
  List.length batches + 1 <= count_case CaseWarnings schedule ->
  result (processApplyStreams cfg app
            (Chan.Make (before ++ [Complete]) true)
            (Chan.Make batches true) er schedule) = Some ErrNil /\
  events_of (history (final (processApplyStreams cfg app
            (Chan.Make (before ++ [Complete]) true)
            (Chan.Make batches true) er schedule))) = before ++ [Complete] /\
  batches_of (history (final (processApplyStreams cfg app
            (Chan.Make (before ++ [Complete]) true)
            (Chan.Make batches true) er schedule))) = batches /\
  text_lines (rendered (ui (final (processApplyStreams cfg app
            (Chan.Make (before ++ [Complete]) true)
            (Chan.Make batches true) er schedule))))
    = flat_map (event_lines cfg app) before /\
  warning_lines (rendered (ui (final (processApplyStreams cfg app
            (Chan.Make (before ++ [Complete]) true)
            (Chan.Make batches true) er schedule))))
    = List.concat batches.
Proof.
  intros Hok Hsched Hne Hnw.
  assert (H0 : rendering_consistent cfg app batches
                 (entry (Chan.Make (before ++ [Complete]) true)
                        (Chan.Make batches true) er))
    by (split; reflexivity).
  pose proof (apply_loop_rendering cfg app _ schedule _ H0) as [Hu _].
  unfold processApplyStreams in *.
  destruct (drains_to_success cfg app Hok schedule
              (entry (Chan.Make (before ++ [Complete]) true)
                     (Chan.Make batches true) er))
    as [s' [Hs' [He' Hb']]].
  - exact Hsched.
  - unfold draining; simpl. repeat split; try discriminate.
    unfold complete_after. rewrite map_app. simpl. apply last_last.
  - reflexivity.
  - unfold events_left, entry. cbn [eventClosed eventStream Chan.pending].
    rewrite length_app. cbn [List.length]. lia.
  - unfold warnings_left, entry.
    cbn [warningsClosed warningsStream Chan.pending]. lia.
  - rewrite Hs' in *. simpl in *.
    repeat split; auto.
    + rewrite Hu, text_lines_of_history, He'. rewrite flat_map_app. simpl.
      rewrite app_nil_r. reflexivity.
    + rewrite Hu, warning_lines_of_history, Hb'. reflexivity.
Qed.

Lemma success_once_streams_are_drained_witness :
  result (processApplyStreams admin_config some_app
            (Chan.Make ([ApplicationUpdated; UploadingApplication] ++ [Complete])
               true)
            (Chan.Make [["disk quota near limit"]] true) open_empty
            [CaseWarnings; CaseEvent; CaseEvent; CaseWarnings; CaseWarnings;
             CaseEvent; CaseEvent; CaseEvent]) = Some ErrNil.
Proof.
  apply (success_once_streams_are_drained admin_config some_app
           [ApplicationUpdated; UploadingApplication]
           [["disk quota near limit"]] open_empty
           [CaseWarnings; CaseEvent; CaseEvent; CaseWarnings; CaseWarnings;
            CaseEvent; CaseEvent; CaseEvent]);
    [reflexivity | reflexivity | vm_compute; lia | vm_compute; lia].
Defined.

(** X3.  In every run the progress lines of the output are the lines of the
    events received, event by event in the order of receipt, and the events
    received are the first events of the events stream, in stream order. *)
Theorem progress_lines_follow_events cfg app ev ws er schedule :
  text_lines
    (rendered (ui (final (processApplyStreams cfg app ev ws er schedule))))
    = flat_map (event_lines cfg app)
        (events_of
           (history (final (processApplyStreams cfg app ev ws er schedule)))) /\
  exists still_pending,
    Chan.pending ev
      = events_of
          (history (final (processApplyStreams cfg app ev ws er schedule)))
        ++ still_pending.
Proof.
  unfold processApplyStreams.
  assert (H0 : rendering_consistent cfg app (Chan.pending ws)
                 (entry ev ws er)) by (split; reflexivity).
  destruct (apply_loop_rendering cfg app _ schedule _ H0) as [Hu _].
  split.
  - rewrite Hu. apply text_lines_of_history.
  - eexists.
    apply (apply_loop_events_in_order cfg app (Chan.pending ev) schedule
             (entry ev ws er)).
    reflexivity.
Qed.

(** X5.  Whenever the loop is at its [select], [eventClosed] and
    [warningsClosed] are true exactly when the closure of their stream has
    been received, [complete] is true exactly when the event received last
    is the terminal marker, the three are not all true, and nothing has
    been taken from the error stream. *)
Theorem flags_record_what_was_received cfg app ev ws er schedule s :
  processApplyStreams cfg app ev ws er schedule = Selecting s ->
  (eventClosed s = true <-> In EventStreamClosed (history s)) /\
  (warningsClosed s = true <-> In WarningsStreamClosed (history s)) /\
  (complete s = true <-> last_event (history s) = Some Complete) /\
  eventClosed s && warningsClosed s && complete s = false /\
  errorStream s = er.
Proof.
  intros Hrun.
  destruct (selecting_consistent _ _ _ _ _ _ _ Hrun) as [Hc Hr].
  repeat split; try apply Hc; try exact Hr.
  exact (selecting_error_stream _ _ _ _ _ _ _ Hrun).
Qed.

Lemma flags_record_what_was_received_witness :
  (true = true <-> In EventStreamClosed
                     [GotEvent Complete; GotEvent RouteBound;
                      EventStreamClosed]) /\
  (false = true <-> In WarningsStreamClosed
                      [GotEvent Complete; GotEvent RouteBound;
                       EventStreamClosed]) /\
  (false = true <-> last_event [GotEvent Complete; GotEvent RouteBound;
                                EventStreamClosed] = Some Complete) /\
  true && false && false = false /\
  (open_empty : Chan.t error) = open_empty.
Proof.
  apply (flags_record_what_was_received admin_config some_app
           (Chan.Make [Complete; RouteBound] true) closed_empty open_empty
           [CaseEvent; CaseEvent; CaseEvent]
           (mkLoop true false false closed_empty closed_empty open_empty
              [DisplayText "Binding routes..."]
              [GotEvent Complete; GotEvent RouteBound; EventStreamClosed])).
  reflexivity.
Defined.

Lemma never_returns_without_terminal_witness :
  result (processApplyStreams admin_config some_app
            (Chan.Make [ApplicationCreated; RouteCreated] true)
            closed_empty closed_empty
            [CaseEvent; CaseWarnings; CaseEvent; CaseEvent; CaseEvent;
             CaseWarnings]) = None.
Proof.
  apply (never_returns_without_terminal admin_config some_app
           (Chan.Make [ApplicationCreated; RouteCreated] true)
           closed_empty closed_empty
           [CaseEvent; CaseWarnings; CaseEvent; CaseEvent; CaseEvent;
            CaseWarnings]).
  - reflexivity.
  - simpl. intros [H|[H|[]]]; discriminate H.
  - reflexivity.
Defined.

Lemma terminal_marker_does_not_stop_witness :
  iteration admin_config some_app
    (mkLoop false true false (Chan.Make [Complete] true)
       closed_empty open_empty [DisplayWarnings []] [WarningsStreamClosed])
    CaseEvent
  = Selecting
      (mkLoop false true true closed_empty closed_empty open_empty
         [DisplayWarnings []]
         ([WarningsStreamClosed] ++ [GotEvent Complete])).
Proof.
  apply (terminal_marker_does_not_stop admin_config some_app
           (Chan.Make [Complete] true) closed_empty open_empty
           [CaseWarnings]
           (mkLoop false true false (Chan.Make [Complete] true)
              closed_empty open_empty [DisplayWarnings []]
              [WarningsStreamClosed])
           closed_empty);
    reflexivity.
Defined.

(** X14.  With a successful current-user lookup, every run has rendered
    exactly one progress line for each event received that is one of the
    six the [switch] displays a text for, and none for the terminal marker
    or for an event the [switch] does not name. *)
Theorem one_line_per_displayed_event cfg app ev ws er schedule :
  is_nil (snd (CurrentUser cfg)) = true ->
  List.length
    (text_lines
       (rendered (ui (final (processApplyStreams cfg app ev ws er schedule)))))
  = List.length
      (filter displays_text
         (events_of
            (history (final (processApplyStreams cfg app ev ws er schedule))))).
Proof.
  intros Hok. unfold processApplyStreams.
  assert (H0 : rendering_consistent cfg app (Chan.pending ws)
                 (entry ev ws er)) by (split; reflexivity).
  destruct (apply_loop_rendering cfg app _ schedule _ H0) as [Hu _].
  rewrite Hu, text_lines_of_history.
  generalize (events_of
                (history (final (apply_loop cfg app schedule (entry ev ws er))))).
  intros l. induction l as [|e l IH]; [reflexivity|].
  simpl. rewrite length_app, IH, (event_lines_count cfg app e Hok).
  destruct (displays_text e); reflexivity.
Qed.

Lemma one_line_per_displayed_event_witness :
  List.length
    (text_lines
       (rendered (ui (final (processApplyStreams admin_config some_app
          (Chan.Make [ApplicationCreated; OtherEvent "Staging"; RouteBound;
                      Complete] true)
          (Chan.Make [["disk quota near limit"]] true) closed_empty
          [CaseEvent; CaseWarnings; CaseEvent; CaseEvent; CaseEvent])))))
  = List.length
      (filter displays_text
         (events_of
            (history (final (processApplyStreams admin_config some_app
          (Chan.Make [ApplicationCreated; OtherEvent "Staging"; RouteBound;
                      Complete] true)
          (Chan.Make [["disk quota near limit"]] true) closed_empty
          [CaseEvent; CaseWarnings; CaseEvent; CaseEvent; CaseEvent]))))).
Proof.
  apply (one_line_per_displayed_event admin_config some_app
           (Chan.Make [ApplicationCreated; OtherEvent "Staging"; RouteBound;
                       Complete] true)
           (Chan.Make [["disk quota near limit"]] true) closed_empty
           [CaseEvent; CaseWarnings; CaseEvent; CaseEvent; CaseEvent]).
  reflexivity.
Defined.

(** ** Execute *)

Lemma GetCommandLineSettings_ok {M : Type} (cmd : V2PushCommand M) :
  snd (Getwd cmd) = ErrNil ->
  GetCommandLineSettings cmd =
    (mkCommandLineSettings (OptionalArgsAppName cmd) (fst (Getwd cmd)),
     ErrNil).
Proof.
  unfold GetCommandLineSettings. destruct (Getwd cmd) as [pwd err]. simpl.
  intros ->. reflexivity.
Qed.

Lemma Execute_prepared {M : Type} W (cmd : V2PushCommand M)
    appConfigs warnings schedules :
  prepared cmd appConfigs warnings ->
  Execute W cmd schedules =
    apply_each cmd appConfigs schedules (preamble W warnings).
Proof.
  intros [Hct [Hwd [manifests [Hm Hc]]]]. unfold Execute.
  rewrite Hct. simpl negb. cbv iota.
  rewrite (GetCommandLineSettings_ok cmd Hwd). simpl negb. cbv iota.
  rewrite Hm. simpl negb. cbv iota. rewrite Hc. reflexivity.
Qed.

(** The loop over a first part of the applications whose runs all return
    nil: their UI calls are logged in order and the loop goes on with the
    applications that follow. *)
Lemma apply_each_applied {M : Type} (cmd : V2PushCommand M)
    before schedules :
  Forall2 (applied cmd) before schedules ->
  forall rest later log,
    apply_each cmd (before ++ rest) (schedules ++ later) log =
    apply_each cmd rest later (log ++ apply_logs cmd before schedules).
Proof.
  induction 1 as [|appConfig schedule before schedules Happ _ IH];
    intros rest later log.
  - unfold apply_logs. simpl. rewrite app_nil_r. reflexivity.
  - simpl. unfold applied in Happ. rewrite Happ. simpl.
    rewrite IH. unfold apply_logs. simpl. rewrite app_assoc. reflexivity.
Qed.

(** X8.  When the steps before the loop succeed and the runs for the first
    applications return nil, the first run to return an error ends
    [Execute]: the result is [HandleError] of that error, the log holds
    the preamble and the UI calls of the runs so far, in order, and the
    applications after the failing one are not applied, whatever their
    schedules. *)
Theorem Execute_stops_at_first_failure {M : Type} W (cmd : V2PushCommand M)
    before failing after warnings schedules schedule later err :
  prepared cmd (before ++ failing :: after) warnings ->
  Forall2 (applied cmd) before schedules ->
  result (apply_run cmd failing schedule) = Some err ->
  is_nil err = false ->
  Execute W cmd (schedules ++ schedule :: later) =
    Done (HandleError cmd err)
      (preamble W warnings ++ apply_logs cmd before schedules
       ++ apply_log cmd failing schedule).
Proof.
  intros Hprep Hbefore Hres Hnil.
  rewrite (Execute_prepared W cmd _ _ _ Hprep).
  rewrite (apply_each_applied cmd _ _ Hbefore).
  cbn [apply_each hd tl]. rewrite Hres, Hnil, <- app_assoc. reflexivity.
Qed.

Lemma Execute_stops_at_first_failure_witness :
  Execute "experimental" (sample_command [Complete] [ErrValue "route taken"])
    ([[CaseEvent; CaseEvent; CaseWarnings]]
     ++ [CaseError] :: [[CaseEvent; CaseEvent]]) =
  Done (ErrValue "FAILED: route taken")
    (preamble "experimental" ["manifest is deprecated"]
     ++ apply_logs (sample_command [Complete] [ErrValue "route taken"])
          [mkApplicationConfig "app-1"]
          [[CaseEvent; CaseEvent; CaseWarnings]]
     ++ apply_log (sample_command [Complete] [ErrValue "route taken"])
          (mkApplicationConfig "app-2") [CaseError]).
Proof.
  apply (Execute_stops_at_first_failure "experimental"
           (sample_command [Complete] [ErrValue "route taken"])
           [mkApplicationConfig "app-1"] (mkApplicationConfig "app-2")
           [mkApplicationConfig "app-3"]
           ["manifest is deprecated"] [[CaseEvent; CaseEvent; CaseWarnings]]
           [CaseError] [[CaseEvent; CaseEvent]] (ErrValue "route taken")).
  - repeat split. eexists. split; reflexivity.
  - repeat constructor.
  - reflexivity.
  - reflexivity.
Defined.

(** X9.  When the steps before the loop succeed and the run for every
    application returns nil, [Execute] returns nil and its log is the
    preamble followed by the UI calls of the runs, application by
    application in the order of [appConfigs]. *)
Theorem Execute_applies_every_application {M : Type} W
    (cmd : V2PushCommand M) appConfigs warnings schedules later :
  prepared cmd appConfigs warnings ->
  Forall2 (applied cmd) appConfigs schedules ->
  Execute W cmd (schedules ++ later) =
    Done ErrNil (preamble W warnings ++ apply_logs cmd appConfigs schedules).
Proof.
  intros Hprep Hall.
  rewrite (Execute_prepared W cmd _ _ _ Hprep).
  rewrite <- (app_nil_r appConfigs) at 1.
  rewrite (apply_each_applied cmd _ _ Hall). reflexivity.
Qed.

Lemma Execute_applies_every_application_witness :
  Execute "experimental" (sample_command [RouteBound; Complete] [])
    ([[CaseEvent; CaseEvent; CaseEvent; CaseWarnings];
      [CaseWarnings; CaseEvent; CaseEvent; CaseEvent];
      [CaseEvent; CaseEvent; CaseError]] ++ []) =
  Done ErrNil
    (preamble "experimental" ["manifest is deprecated"]
     ++ apply_logs (sample_command [RouteBound; Complete] [])
          [mkApplicationConfig "app-1"; mkApplicationConfig "app-2";
           mkApplicationConfig "app-3"]
          [[CaseEvent; CaseEvent; CaseEvent; CaseWarnings];
           [CaseWarnings; CaseEvent; CaseEvent; CaseEvent];
           [CaseEvent; CaseEvent; CaseError]]).
Proof.
  apply (Execute_applies_every_application "experimental"
           (sample_command [RouteBound; Complete] [])).
  - repeat split. eexists. split; reflexivity.
  - repeat constructor.
Defined.



Lemma apply_each_result {M : Type} (cmd : V2PushCommand M)
    appConfigs schedules log err log' :
  apply_each cmd appConfigs schedules log = Done err log' ->
  err = ErrNil \/ exists e, is_nil e = false /\ err = HandleError cmd e.
Proof.
  revert schedules log.
  induction appConfigs as [|appConfig rest IH]; intros schedules log; simpl.
  - intros H. inversion H; subst. auto.
  - destruct (result (apply_run cmd appConfig (hd [] schedules)))
      as [e|]; [|discriminate].
    destruct (is_nil e) eqn:Hnil.
    + intros H. exact (IH _ _ H).
    + intros H. inversion H; subst. eauto.
Qed.

Lemma apply_each_log_extends {M : Type} (cmd : V2PushCommand M)
    appConfigs schedules log :
  exists more,
    execute_log (apply_each cmd appConfigs schedules log) = log ++ more.
Proof.
  revert schedules log.
  induction appConfigs as [|appConfig rest IH]; intros schedules log; simpl.
  - exists []. rewrite app_nil_r. reflexivity.
  - destruct (result (apply_run cmd appConfig (hd [] schedules)))
      as [e|]; [|simpl; eauto].
    destruct (is_nil e); [|simpl; eauto].
    destruct (IH (tl schedules)
                (log ++ apply_log cmd appConfig (hd [] schedules)))
      as [more ->].
    rewrite <- app_assoc. eauto.
Qed.

(** X11.  Whatever the collaborators answer and whatever the schedules,
    the first thing [Execute] displays is the experimental warning, and an
    error it returns has passed through [HandleError]: the result is nil
    or [HandleError e] for an error [e] that is not nil. *)
Theorem Execute_translates_every_error {M : Type} W (cmd : V2PushCommand M)
    schedules :
  (exists more,
     execute_log (Execute W cmd schedules) = DisplayWarning W :: more) /\
  (forall err log,
     Execute W cmd schedules = Done err log ->
     err = ErrNil \/ exists e, is_nil e = false /\ err = HandleError cmd e).
Proof.
  unfold Execute.
  destruct (is_nil (CheckTarget cmd)) eqn:H1; simpl negb; cbv iota.
  2:{ split; [simpl; eauto|]. intros err log H. inversion H; subst.
      right. eauto. }
  destruct (GetCommandLineSettings cmd) as [cliSettings e2].
  destruct (is_nil e2) eqn:H2; simpl negb; cbv iota.
  2:{ split; [simpl; eauto|]. intros err log H. inversion H; subst.
      right. eauto. }
  destruct (MergeAndValidateSettingsAndManifests (Actor cmd) cliSettings [])
    as [manifests e3].
  destruct (is_nil e3) eqn:H3; simpl negb; cbv iota.
  2:{ split; [simpl; eauto|]. intros err log H. inversion H; subst.
      right. eauto. }
  destruct (ConvertToApplicationConfig (Actor cmd)
              (TargetedOrganizationGUID cmd) (TargetedSpaceGUID cmd)
              manifests) as [[appConfigs warnings] e4].
  destruct (is_nil e4) eqn:H4; simpl negb; cbv iota.
  2:{ split; [simpl; eauto|]. intros err log H. inversion H; subst.
      right. eauto. }
  split.
  - match goal with
    | |- context [apply_each cmd appConfigs schedules ?l] =>
        destruct (apply_each_log_extends cmd appConfigs schedules l)
          as [more ->]
    end.
    simpl. eauto.
  - intros err log H. apply (apply_each_result _ _ _ _ _ _ H).
Qed.

(** X12.  Once [CheckTarget], [GetCommandLineSettings] and the merge have
    succeeded, the warnings of [ConvertToApplicationConfig] are displayed
    whatever else it returns; and when it returns an error, [Execute]
    returns [HandleError] of it with nothing displayed after those
    warnings: the configurations returned beside the error are not
    applied. *)
Theorem Execute_displays_conversion_warnings {M : Type} W
    (cmd : V2PushCommand M) manifests appConfigs warnings err schedules :
  CheckTarget cmd = ErrNil ->
  snd (Getwd cmd) = ErrNil ->
  MergeAndValidateSettingsAndManifests (Actor cmd)
    (mkCommandLineSettings (OptionalArgsAppName cmd) (fst (Getwd cmd))) []
    = (manifests, ErrNil) ->
  ConvertToApplicationConfig (Actor cmd)
    (TargetedOrganizationGUID cmd) (TargetedSpaceGUID cmd) manifests
    = (appConfigs, warnings, err) ->
  (exists more,
     execute_log (Execute W cmd schedules) = preamble W warnings ++ more) /\
  (is_nil err = false ->
   Execute W cmd schedules = Done (HandleError cmd err) (preamble W warnings)).
Proof.
  intros Hct Hwd Hm Hc. unfold Execute.
  rewrite Hct. simpl negb. cbv iota.
  rewrite (GetCommandLineSettings_ok cmd Hwd). simpl negb. cbv iota.
  rewrite Hm. simpl negb. cbv iota. rewrite Hc.
  destruct (is_nil err); simpl negb; cbv iota.
  - split; [|discriminate]. apply apply_each_log_extends.
  - split; [|reflexivity]. exists []. rewrite app_nil_r. reflexivity.
Qed.

Lemma Execute_displays_conversion_warnings_witness :
  Execute "experimental"
    (mkV2PushCommand string "some-app" admin_config "org-guid" "space-guid"
       ErrNil ("/home/app", ErrNil)
       (mkV2PushActor string
          (fun _ => (closed_empty, closed_empty, closed_empty))
          (fun _ _ _ =>
             ([mkApplicationConfig "app-1"], ["no routes"],
              ErrValue "no such domain"))
          (fun _ manifests => (manifests, ErrNil)))
       (fun err => err))
    [[CaseEvent]] =
  Done (ErrValue "no such domain") (preamble "experimental" ["no routes"]).
Proof.
  apply (Execute_displays_conversion_warnings "experimental"
           (mkV2PushCommand string "some-app" admin_config "org-guid"
              "space-guid" ErrNil ("/home/app", ErrNil)
              (mkV2PushActor string
                 (fun _ => (closed_empty, closed_empty, closed_empty))
                 (fun _ _ _ =>
                    ([mkApplicationConfig "app-1"], ["no routes"],
                     ErrValue "no such domain"))
                 (fun _ manifests => (manifests, ErrNil)))
              (fun err => err))
           [] [mkApplicationConfig "app-1"] ["no routes"]
           (ErrValue "no such domain") [[CaseEvent]]);
    reflexivity.
Defined.

(** ** SecurityGroup.UnmarshalJSON *)

Lemma assign_middle done r todo f :
  CCV2.assign (done ++ r :: todo) (List.length done) f
    = Some (done ++ f r :: todo).
Proof.
  induction done as [|a done IH]; [reflexivity|].
  unfold CCV2.assign in *. simpl.
  destruct (nth_error (done ++ r :: todo) (List.length done)) as [r'|];
    [|discriminate].
  inversion IH as [H]. rewrite H. reflexivity.
Qed.

Lemma copy_rule_middle done r todo c :
  CCV2.copy_rule (List.length done) c (done ++ r :: todo)
    = Some (done ++ CCV2.of_ccRule c :: todo).
Proof.
  unfold CCV2.copy_rule. rewrite assign_middle. simpl.
  rewrite assign_middle. simpl. rewrite assign_middle. simpl.
  rewrite assign_middle. reflexivity.
Qed.

Lemma copy_rules_from done ccRules :
  CCV2.copy_rules (List.length done) ccRules
    (done ++ repeat CCV2.zero_rule (List.length ccRules))
    = Some (done ++ map CCV2.of_ccRule ccRules).
Proof.
  revert done. induction ccRules as [|c rest IH]; intros done; simpl.
  - reflexivity.
  - rewrite copy_rule_middle. simpl.
    replace (done ++ CCV2.of_ccRule c :: repeat CCV2.zero_rule (List.length rest))
      with ((done ++ [CCV2.of_ccRule c])
            ++ repeat CCV2.zero_rule (List.length rest))
      by (rewrite <- app_assoc; reflexivity).
    replace (S (List.length done))
      with (List.length (done ++ [CCV2.of_ccRule c]))
      by (rewrite length_app; simpl; lia).
    rewrite IH, <- app_assoc. reflexivity.
Qed.

(** X13.  [UnmarshalJSON] never indexes out of range.  When decoding
    fails it returns the decoder's error and leaves the receiver as it
    was.  When decoding succeeds it replaces the receiver: the GUID is the
    one of the metadata (the GUID of the entity is not read), the name is
    the entity's, and the rules are the entity's rules, field by field, in
    the same order and number. *)
Theorem UnmarshalJSON_copies_every_rule json_Unmarshal securityGroup data :
  CCV2.UnmarshalJSON json_Unmarshal securityGroup data =
    Some (if is_nil (snd (json_Unmarshal data))
          then (CCV2.mkSecurityGroup
                  (CCV2.metadata_guid (fst (json_Unmarshal data)))
                  (CCV2.name (CCV2.entity (fst (json_Unmarshal data))))
                  (map CCV2.of_ccRule
                     (CCV2.rules (CCV2.entity (fst (json_Unmarshal data))))),
                ErrNil)
          else (securityGroup, snd (json_Unmarshal data))).
Proof.
  unfold CCV2.UnmarshalJSON.
  destruct (json_Unmarshal data) as [cc err]. simpl fst. simpl snd.
  destruct (is_nil err); simpl negb; cbv iota; [|reflexivity].
  pose proof (copy_rules_from [] (CCV2.rules (CCV2.entity cc))) as H.
  simpl in H. rewrite H. reflexivity.
Qed.
